(** * The reactive state layer of the User-Management-Table demo

    A shallow embedding of
    - the NgRx todo store: [todos.reducer], [todos.selectors],
      [todos.effects], [todos.facade] and the [Todos] component;
    - the derived-view pipeline of [UserTableComponent]
      (filter, sort, paginate, debounced search commit).

    JavaScript strings are sequences of UTF-16 code units, numbers that
    the code only uses as integers are [Z], [null] is [None]. *)

From Stdlib Require Import ZArith NArith List String Ascii Bool Lia.
From Stdlib Require Import DecimalString DecimalZ DecimalPos.
From Stdlib Require Import QArith Qround.
From Stdlib Require Import Permutation Sorted.
Import ListNotations.

Local Open Scope Z_scope.

(* ================================================================== *)
(** ** JavaScript strings *)
(* ================================================================== *)

Module JS.

(** A string value is a finite sequence of 16-bit code units. *)
Definition code_unit := N.
Definition jsstring := list code_unit.

(** Literals: every character of a Rocq string is one code unit
    (the Latin-1 range of UTF-16). *)
Definition str (s : string) : jsstring :=
  map N_of_ascii (list_ascii_of_string s).

(** [a === b] on strings: same length, same code units. *)
Fixpoint streq (a b : jsstring) : bool :=
  match a, b with
  | [], [] => true
  | x :: a', y :: b' => N.eqb x y && streq a' b'
  | _, _ => false
  end.

(** ECMAScript WhiteSpace and LineTerminator code points, the set that
    [String.prototype.trim] strips. All of them lie in the BMP. *)
Definition isWhiteSpace (c : code_unit) : bool :=
  (N.eqb c 9 || N.eqb c 10 || N.eqb c 11 || N.eqb c 12 || N.eqb c 13
   || N.eqb c 32 || N.eqb c 160 || N.eqb c 5760
   || (N.leb 8192 c && N.leb c 8202)
   || N.eqb c 8232 || N.eqb c 8233 || N.eqb c 8239 || N.eqb c 8287
   || N.eqb c 12288 || N.eqb c 65279)%bool.

Fixpoint trimStart (s : jsstring) : jsstring :=
  match s with
  | [] => []
  | c :: s' => if isWhiteSpace c then trimStart s' else s
  end.

Definition trimEnd (s : jsstring) : jsstring := rev (trimStart (rev s)).

(** [s.trim()] *)
Definition trim (s : jsstring) : jsstring := trimEnd (trimStart s).

(** [!s] for a string [s]: only the empty string is falsy. *)
Definition falsy (s : jsstring) : bool :=
  match s with [] => true | _ :: _ => false end.

Fixpoint startsWith (s t : jsstring) : bool :=
  match t, s with
  | [], _ => true
  | _ :: _, [] => false
  | y :: t', x :: s' => N.eqb x y && startsWith s' t'
  end.

(** [s.includes(t)]: [t] occurs in [s] as a contiguous run. *)
Fixpoint includes (s t : jsstring) : bool :=
  startsWith s t ||
  match s with
  | [] => false
  | _ :: s' => includes s' t
  end.

(** [n.toString()] for an integral number below 10^21 in magnitude
    (every value of [Date.now()] is): the decimal digits, with a
    leading minus sign when negative. *)
Definition number_toString (n : Z) : jsstring :=
  str (NilZero.string_of_int (Z.to_int n)).

(** Lower-casing restricted to the letters A-Z; the host's
    [toLowerCase] agrees with it on ASCII text. *)
Definition asciiLower (c : code_unit) : code_unit :=
  if (N.leb 65 c && N.leb c 90)%bool then (c + 32)%N else c.

Definition asciiToLowerCase (s : jsstring) : jsstring := map asciiLower s.

(** Code-unit order, the comparison the host's [localeCompare] is
    instantiated with when an executable collation is needed. *)
Fixpoint codeUnitCompare (a b : jsstring) : Z :=
  match a, b with
  | [], [] => 0
  | [], _ :: _ => -1
  | _ :: _, [] => 1
  | x :: a', y :: b' =>
      match N.compare x y with
      | Lt => -1
      | Gt => 1
      | Eq => codeUnitCompare a' b'
      end
  end.

End JS.

(* ================================================================== *)
(** ** The todo store *)
(* ================================================================== *)

Module TodoStore.
Import JS.

(** Modelled from the spec: the [Todo] interface of [todos.models.ts],
    a type declaration that is not among the sources. Section 3 gives a
    record an [id] (a string), a [title] and a [completed] flag; these
    are the three fields the reducer and the service build. *)
Record Todo := mkTodo {
  id : jsstring;
  title : jsstring;
  completed : bool
}.

(** [todos.reducer.ts]: [TodosState] *)
Record TodosState := mkState {
  todos : list Todo;
  loading : bool;
  error : option jsstring
}.

Definition initialState : TodosState :=
  {| todos := []; loading := false; error := None |}.

(** [todos.action.ts] *)
Inductive Action :=
| addTodo (title : jsstring)
| toggleTodo (id : jsstring)
| deleteTodo (id : jsstring)
| loadTodos
| loadTodosSuccess (todos : list Todo)
| loadTodosFailure (error : jsstring).

(** [todosReducer]. The [addTodo] handler reads the wall clock
    ([Date.now()]); the reading is the explicit argument [now]. *)
Definition todosReducer (now : Z) (state : TodosState) (a : Action)
  : TodosState :=
  match a with
  | loadTodos =>
      {| todos := todos state; loading := true; error := None |}
  | loadTodosSuccess ts =>
      {| todos := ts; loading := false; error := error state |}
  | loadTodosFailure e =>
      {| todos := todos state; loading := false; error := Some e |}
  | addTodo t =>
      let newTodo :=
        {| id := number_toString now; title := t; completed := false |} in
      {| todos := todos state ++ [newTodo];
         loading := loading state;
         error := error state |}
  | toggleTodo i =>
      {| todos :=
           map (fun todo =>
                  if streq (id todo) i
                  then {| id := id todo; title := title todo;
                          completed := negb (completed todo) |}
                  else todo)
               (todos state);
         loading := loading state;
         error := error state |}
  | deleteTodo i =>
      {| todos := filter (fun todo => negb (streq (id todo) i)) (todos state);
         loading := loading state;
         error := error state |}
  end.

(** The ids of the records in [todos], in order. *)
Definition ids (s : TodosState) : list jsstring := map id (todos s).

(** The function [toggleTodo] maps over [todos]. *)
Definition flip (i : jsstring) (todo : Todo) : Todo :=
  if streq (id todo) i
  then {| id := id todo; title := title todo;
          completed := negb (completed todo) |}
  else todo.

(** Replaying a command sequence: the store folds the reducer over the
    dispatched actions; [clock k] is what [Date.now()] returns while
    the [k]-th action of the run is being reduced. *)
Fixpoint replay (clock : nat -> Z) (k : nat) (state : TodosState)
  (cmds : list Action) : TodosState :=
  match cmds with
  | [] => state
  | a :: rest => replay clock (S k) (todosReducer (clock k) state a) rest
  end.

Definition isAddTodo (a : Action) : bool :=
  match a with addTodo _ => true | _ => false end.

(** [todos.selectors.ts] *)
Definition selectAllTodos (s : TodosState) : list Todo := todos s.
Definition selectCompletedTodos (s : TodosState) : list Todo :=
  filter (fun todo => completed todo) (selectAllTodos s).
Definition selectActiveTodos (s : TodosState) : list Todo :=
  filter (fun todo => negb (completed todo)) (selectAllTodos s).
Definition selectTodosLoading (s : TodosState) : bool := loading s.
Definition selectTodosError (s : TodosState) : option jsstring := error s.
Definition selectTodosCount (s : TodosState) : nat :=
  List.length (selectAllTodos s).
Definition selectCompletedTodosCount (s : TodosState) : nat :=
  List.length (selectCompletedTodos s).

(** *** Store and effects ([todos.effects.ts])

    Every effect is [actions$ |> ofType(X) |> switchMap(call)]: when an
    action of type [X] is dispatched the effect subscribes to a new
    data-source call and unsubscribes from the call it was subscribed
    to before, if that one has not settled yet. Calls are numbered in
    the order they are issued. The data source itself is an opaque
    collaborator: when and how a call settles is an input of the model. *)

Inductive Lane := LoadLane | AddLane | ToggleLane | DeleteLane.

(** The inner subscription each effect currently holds, and the number
    of data-source calls issued so far. *)
Record Effects := mkEffects {
  loadTodos_fx : option nat;
  addTodo_fx : option nat;
  toggleTodo_fx : option nat;
  deleteTodo_fx : option nat;
  issued : nat
}.

(** The store: the feature state, the actions stream seen so far (in
    dispatch order), and the effects listening to that stream. *)
Record System := mkSystem {
  state : TodosState;
  actions : list Action;
  effects : Effects
}.

Definition noEffects : Effects :=
  {| loadTodos_fx := None; addTodo_fx := None; toggleTodo_fx := None;
     deleteTodo_fx := None; issued := 0 |}.

Definition initialSystem (s : TodosState) : System :=
  {| state := s; actions := []; effects := noEffects |}.

Definition inner (l : Lane) (e : Effects) : option nat :=
  match l with
  | LoadLane => loadTodos_fx e
  | AddLane => addTodo_fx e
  | ToggleLane => toggleTodo_fx e
  | DeleteLane => deleteTodo_fx e
  end.

Definition setInner (l : Lane) (v : option nat) (e : Effects) : Effects :=
  match l with
  | LoadLane =>
      {| loadTodos_fx := v; addTodo_fx := addTodo_fx e;
         toggleTodo_fx := toggleTodo_fx e;
         deleteTodo_fx := deleteTodo_fx e; issued := issued e |}
  | AddLane =>
      {| loadTodos_fx := loadTodos_fx e; addTodo_fx := v;
         toggleTodo_fx := toggleTodo_fx e;
         deleteTodo_fx := deleteTodo_fx e; issued := issued e |}
  | ToggleLane =>
      {| loadTodos_fx := loadTodos_fx e; addTodo_fx := addTodo_fx e;
         toggleTodo_fx := v;
         deleteTodo_fx := deleteTodo_fx e; issued := issued e |}
  | DeleteLane =>
      {| loadTodos_fx := loadTodos_fx e; addTodo_fx := addTodo_fx e;
         toggleTodo_fx := toggleTodo_fx e;
         deleteTodo_fx := v; issued := issued e |}
  end.

(** [switchMap]: drop the previous inner subscription of the lane and
    subscribe to a newly issued call. *)
Definition switchMap (l : Lane) (e : Effects) : Effects :=
  let e' := setInner l (Some (issued e)) e in
  {| loadTodos_fx := loadTodos_fx e'; addTodo_fx := addTodo_fx e';
     toggleTodo_fx := toggleTodo_fx e';
     deleteTodo_fx := deleteTodo_fx e'; issued := S (issued e) |}.

(** [ofType]: the lane an action triggers, if any. *)
Definition ofType (a : Action) : option Lane :=
  match a with
  | loadTodos => Some LoadLane
  | addTodo _ => Some AddLane
  | toggleTodo _ => Some ToggleLane
  | deleteTodo _ => Some DeleteLane
  | loadTodosSuccess _ | loadTodosFailure _ => None
  end.

(** [store.dispatch(a)]: the reducer runs, then the action is emitted
    on the actions stream, where the effects react to it. *)
Definition dispatch (now : Z) (a : Action) (sys : System) : System :=
  {| state := todosReducer now (state sys) a;
     actions := actions sys ++ [a];
     effects :=
       match ofType a with
       | Some l => switchMap l (effects sys)
       | None => effects sys
       end |}.

(** How a data-source call settles: it emits a value and completes, or
    it fails with [error.message]. Only the load lane looks at the
    value (the list of todos); the other lanes map any value to
    [loadTodos()]. *)
Inductive Settlement :=
| Next (value : list Todo)
| Error (message : jsstring).

(** The [map] / [catchError] stage of each effect. *)
Definition followUp (l : Lane) (r : Settlement) : Action :=
  match r with
  | Error m => loadTodosFailure m
  | Next v =>
      match l with
      | LoadLane => loadTodosSuccess v
      | AddLane | ToggleLane | DeleteLane => loadTodos
      end
  end.

Definition holds (req : nat) (o : option nat) : bool :=
  match o with
  | Some r => Nat.eqb r req
  | None => false
  end.

(** The lane whose live inner subscription is call [req]. *)
Definition laneOf (req : nat) (e : Effects) : option Lane :=
  if holds req (loadTodos_fx e) then Some LoadLane
  else if holds req (addTodo_fx e) then Some AddLane
  else if holds req (toggleTodo_fx e) then Some ToggleLane
  else if holds req (deleteTodo_fx e) then Some DeleteLane
  else None.

(** Call [req] settles. If an effect is still subscribed to it, the
    inner observable completes and the follow-up action is dispatched;
    a call nobody is subscribed to any more has no observer. *)
Definition settle (now : Z) (req : nat) (r : Settlement) (sys : System)
  : System :=
  match laneOf req (effects sys) with
  | None => sys
  | Some l =>
      dispatch now (followUp l r)
        {| state := state sys;
           actions := actions sys;
           effects := setInner l None (effects sys) |}
  end.

Inductive Event :=
| Dispatched (now : Z) (a : Action)
| Settled (now : Z) (req : nat) (r : Settlement).

Definition step (sys : System) (ev : Event) : System :=
  match ev with
  | Dispatched now a => dispatch now a sys
  | Settled now req r => settle now req r sys
  end.

Definition run (evs : list Event) (sys : System) : System :=
  fold_left step evs sys.

(** *** Invariants of the effects *)

Definition Lane_eqb (a b : Lane) : bool :=
  match a, b with
  | LoadLane, LoadLane | AddLane, AddLane
  | ToggleLane, ToggleLane | DeleteLane, DeleteLane => true
  | _, _ => false
  end.

(** Every subscription is to a call that has been issued. *)
Definition wellFormed (e : Effects) : Prop :=
  forall l q, inner l e = Some q -> (q < issued e)%nat.

(** Call [r] was issued and no lane but the load lane may hold it. *)
Definition onlyLoadHolds (r : nat) (e : Effects) : Prop :=
  (r < issued e)%nat /\
  forall l, l <> LoadLane -> inner l e <> Some r.

(** Call [r] was issued, no lane holds it, and the load lane holds a
    later call if any. *)
Definition superseded (r : nat) (e : Effects) : Prop :=
  (r < issued e)%nat /\
  (forall l, inner l e <> Some r) /\
  (forall q, inner LoadLane e = Some q -> (r < q)%nat).

(** No two lanes are subscribed to the same call. *)
Definition distinctCalls (e : Effects) : Prop :=
  forall l l' q, inner l e = Some q -> inner l' e = Some q -> l = l'.

(** A dispatch that does not trigger the load lane. *)
Definition leavesLoadAlone (ev : Event) : bool :=
  match ev with
  | Dispatched _ a =>
      match ofType a with
      | Some LoadLane => false
      | _ => true
      end
  | Settled _ _ _ => false
  end.

(** The actions stream numbers the calls. Every action that triggers
    an effect issues one call, so the call issued for an action is the
    number of triggering actions in front of it in the stream. *)
Definition isTrigger (a : Action) : bool :=
  match ofType a with
  | Some _ => true
  | None => false
  end.

Definition triggers (stream : list Action) : nat :=
  List.length (filter isTrigger stream).

(** The calls issued so far are those of the stream, and a lane is
    subscribed only to the call of the last action of its type. *)
Definition streamNumbered (sys : System) : Prop :=
  issued (effects sys) = triggers (actions sys) /\
  forall l q,
    inner l (effects sys) = Some q ->
    exists pre a post,
      actions sys = pre ++ a :: post /\ ofType a = Some l /\
      triggers pre = q /\
      (forall b, In b post -> ofType b <> Some l).

(** *** Facade ([todos.facade.ts]) *)

Module TodosFacade.
Definition loadTodos (now : Z) (sys : System) : System :=
  dispatch now TodoStore.loadTodos sys.
Definition addTodo (now : Z) (title : jsstring) (sys : System) : System :=
  dispatch now (TodoStore.addTodo title) sys.
Definition toggleTodo (now : Z) (id : jsstring) (sys : System) : System :=
  dispatch now (TodoStore.toggleTodo id) sys.
Definition deleteTodo (now : Z) (id : jsstring) (sys : System) : System :=
  dispatch now (TodoStore.deleteTodo id) sys.
End TodosFacade.

(** *** The [Todos] component ([todos.ts]) *)

Record Todos := mkTodos {
  newTitle : jsstring;
  facade : System
}.

(** [add()] *)
Definition add (now : Z) (c : Todos) : Todos :=
  if falsy (trim (newTitle c)) then c
  else {| newTitle := [];
          facade := TodosFacade.addTodo now (trim (newTitle c)) (facade c) |}.

(** [toggle(todo)] and [delete(todo)] *)
Definition toggle (now : Z) (todo : Todo) (c : Todos) : Todos :=
  {| newTitle := newTitle c;
     facade := TodosFacade.toggleTodo now (id todo) (facade c) |}.

Definition delete (now : Z) (todo : Todo) (c : Todos) : Todos :=
  {| newTitle := newTitle c;
     facade := TodosFacade.deleteTodo now (id todo) (facade c) |}.

(** *** The data source ([todos.service.ts])

    The service owns the array [mockTodos]. Each method is modelled by
    what it does to that array and by the value its observable emits;
    the delay before the emission is the settlement of the effects
    model above. *)

Module TodosService.

Definition mockTodos : list Todo :=
  [ mkTodo (str "1") (str "Learn Angular") true;
    mkTodo (str "2") (str "Learn NgRx") false;
    mkTodo (str "3") (str "Build an app") false ].

(** [addTodo(title)]: push a new record, emit it. *)
Definition addTodo (now : Z) (title : jsstring) (mock : list Todo)
  : list Todo * Todo :=
  let newTodo :=
    {| id := number_toString now; title := title; completed := false |} in
  (mock ++ [newTodo], newTodo).

(** [toggleTodo(id)]: [find] returns the first record with that id;
    its [completed] flag is flipped in place and the record is
    emitted. Without a match the array is untouched and [undefined]
    is emitted. *)
Fixpoint toggleTodo (i : jsstring) (mock : list Todo)
  : list Todo * option Todo :=
  match mock with
  | [] => ([], None)
  | t :: rest =>
      if streq (id t) i then
        let t' := {| id := id t; title := title t;
                     completed := negb (completed t) |} in
        (t' :: rest, Some t')
      else
        let (rest', found) := toggleTodo i rest in
        (t :: rest', found)
  end.

(** [Array.prototype.findIndex]: the first index that satisfies the
    predicate, [-1] when there is none. *)
Fixpoint findIndex {A} (p : A -> bool) (l : list A) : Z :=
  match l with
  | [] => -1
  | x :: l' =>
      if p x then 0
      else let k := findIndex p l' in
           if k <? 0 then -1 else k + 1
  end.

(** [splice(index, 1)] for an index inside the array. *)
Definition splice1 {A} (index : Z) (l : list A) : list A :=
  firstn (Z.to_nat index) l ++ skipn (S (Z.to_nat index)) l.

(** [deleteTodo(id)] *)
Definition deleteTodo (i : jsstring) (mock : list Todo)
  : list Todo * bool :=
  let index := findIndex (fun t => streq (id t) i) mock in
  if -1 <? index then (splice1 index mock, true)
  else (mock, false).

End TodosService.

End TodoStore.

(* ================================================================== *)
(** ** The user table's derived-view pipeline *)
(* ================================================================== *)

Module UserTable.
Import JS.

(** [Array.prototype.slice(start, end)]: negative indices count from
    the end, and both indices are clamped to the array. *)
Definition relativeIndex (len i : Z) : Z :=
  if i <? 0 then Z.max (len + i) 0 else Z.min i len.

Definition slice {A} (l : list A) (start stop : Z) : list A :=
  let len := Z.of_nat (List.length l) in
  let k := relativeIndex len start in
  let final := relativeIndex len stop in
  firstn (Z.to_nat (final - k)) (skipn (Z.to_nat k) l).

(** [Array.prototype.sort(cmp)]: the sort is stable, and [cmp a b <= 0]
    keeps [a] in front of [b] (insertion from the right; every stable
    sort returns the same array when [cmp] is a consistent comparator). *)
Fixpoint insert {A} (cmp : A -> A -> Z) (x : A) (l : list A) : list A :=
  match l with
  | [] => [x]
  | y :: l' => if cmp x y <=? 0 then x :: l else y :: insert cmp x l'
  end.

Fixpoint sort {A} (cmp : A -> A -> Z) (l : list A) : list A :=
  match l with
  | [] => []
  | x :: l' => insert cmp x (sort cmp l')
  end.

Record User := mkUser {
  id : Z;
  name : jsstring;
  email : jsstring;
  age : Z
}.

(** [keyof User] *)
Inductive UserKey := key_id | key_name | key_email | key_age.

Definition UserKey_eqb (a b : UserKey) : bool :=
  match a, b with
  | key_id, key_id | key_name, key_name
  | key_email, key_email | key_age, key_age => true
  | _, _ => false
  end.

(** What [user[column]] evaluates to, with its [typeof]. *)
Inductive Value :=
| VString (s : jsstring)
| VNumber (n : Z).

Definition get (u : User) (column : UserKey) : Value :=
  match column with
  | key_id => VNumber (id u)
  | key_name => VString (name u)
  | key_email => VString (email u)
  | key_age => VNumber (age u)
  end.

Inductive Direction := asc | desc.

Record ColumnDefinition := mkColumn {
  label : jsstring;
  key : UserKey;
  cellType_text : bool;
  sortable : bool
}.

Definition columnDefinitions : list ColumnDefinition :=
  [ {| label := str "Name"; key := key_name;
       cellType_text := true; sortable := true |};
    {| label := str "Email"; key := key_email;
       cellType_text := true; sortable := false |};
    {| label := str "Age"; key := key_age;
       cellType_text := false; sortable := true |} ].

Definition mockUsers : list User :=
  [ mkUser 1 (str "Alice Johnson") (str "alice@example.com") 28;
    mkUser 2 (str "Bob Smith") (str "bob@example.com") 34;
    mkUser 3 (str "Charlie Brown") (str "charlie@example.com") 22;
    mkUser 4 (str "David Wilson") (str "david@example.com") 30;
    mkUser 5 (str "Eva Adams") (str "eva@example.com") 27;
    mkUser 6 (str "Frank Miller") (str "frank@example.com") 35;
    mkUser 7 (str "Grace Lee") (str "grace@example.com") 29;
    mkUser 8 (str "Henry Ford") (str "henry@example.com") 33 ].

(** The component's signals, the record collection it reads, and the
    two pieces of state the search pipe keeps: the value
    [distinctUntilChanged] emitted last and whether [destroy$] has
    fired. The [isLoading] spinner flag plays no part in the pipeline
    and is left out. *)
Record UserTableComponent := mkTable {
  users : list User;
  searchTerm : jsstring;
  currentPage : Z;
  pageSize : Z;
  sortColumn : option UserKey;
  sortDirection : Direction;
  lastEmitted : option jsstring;
  destroyed : bool
}.

Definition initial : UserTableComponent :=
  {| users := mockUsers; searchTerm := []; currentPage := 1;
     pageSize := 5; sortColumn := Some key_name; sortDirection := asc;
     lastEmitted := None; destroyed := false |}.

Section Host.
(** Provided by the host's internationalisation library. *)
Variable toLowerCase : jsstring -> jsstring.
Variable localeCompare : jsstring -> jsstring -> Z.

Definition filteredUsers (c : UserTableComponent) : list User :=
  let term := toLowerCase (searchTerm c) in
  if falsy (trim term) then users c
  else filter (fun user =>
                 includes (toLowerCase (name user)) term
                 || includes (toLowerCase (email user)) term)
              (users c).

(** The comparator handed to [sort]. *)
Definition compareUsers (column : UserKey) (direction : Direction)
  (a b : User) : Z :=
  match get a column, get b column with
  | VString aValue, VString bValue =>
      match direction with
      | asc => localeCompare aValue bValue
      | desc => localeCompare bValue aValue
      end
  | VNumber aValue, VNumber bValue =>
      match direction with
      | asc => aValue - bValue
      | desc => bValue - aValue
      end
  | _, _ => 0
  end.

Definition sortedUsers (c : UserTableComponent) : list User :=
  match sortColumn c with
  | None => filteredUsers c
  | Some column =>
      sort (compareUsers column (sortDirection c)) (filteredUsers c)
  end.

Definition paginatedUsers (c : UserTableComponent) : list User :=
  let page := currentPage c in
  let size := pageSize c in
  let startIndex := (page - 1) * size in
  let endIndex := startIndex + size in
  slice (sortedUsers c) startIndex endIndex.

(** [Math.ceil(sortedUsers().length / pageSize())], computed on exact
    rationals. For an array length and a non-zero integral page size
    the floating-point quotient rounds to the same integer. *)
Definition totalPages (c : UserTableComponent) : Z :=
  Qceiling (inject_Z (Z.of_nat (List.length (sortedUsers c)))
            / inject_Z (pageSize c)).

Definition hasPreviousPage (c : UserTableComponent) : bool :=
  1 <? currentPage c.
Definition hasNextPage (c : UserTableComponent) : bool :=
  currentPage c <? totalPages c.

Definition setCurrentPage (page : Z) (c : UserTableComponent)
  : UserTableComponent :=
  {| users := users c; searchTerm := searchTerm c; currentPage := page;
     pageSize := pageSize c; sortColumn := sortColumn c;
     sortDirection := sortDirection c; lastEmitted := lastEmitted c;
     destroyed := destroyed c |}.

Definition goToPage (page : Z) (c : UserTableComponent)
  : UserTableComponent :=
  if (1 <=? page) && (page <=? totalPages c)
  then setCurrentPage page c else c.

Definition nextPage (c : UserTableComponent) : UserTableComponent :=
  if hasNextPage c then setCurrentPage (currentPage c + 1) c else c.

Definition previousPage (c : UserTableComponent) : UserTableComponent :=
  if hasPreviousPage c then setCurrentPage (currentPage c - 1) c else c.
End Host.

(** The subscriber of the search pipe: commit the term as the active
    query and go back to the first page. *)
Definition commit (term : jsstring) (c : UserTableComponent)
  : UserTableComponent :=
  {| users := users c; searchTerm := term; currentPage := 1;
     pageSize := pageSize c; sortColumn := sortColumn c;
     sortDirection := sortDirection c; lastEmitted := Some term;
     destroyed := destroyed c |}.

(** [distinctUntilChanged()] with its default comparator: [===]
    against the value it let through last. *)
Definition distinctUntilChanged (term : jsstring) (c : UserTableComponent)
  : bool :=
  match lastEmitted c with
  | None => true
  | Some previous => negb (streq previous term)
  end.

(** A value typed into the search box has survived the 300 ms
    [debounceTime] window and travels down the rest of the pipe:
    [distinctUntilChanged], [takeUntil(destroy$)], the subscriber. *)
Definition searchSettled (term : jsstring) (c : UserTableComponent)
  : UserTableComponent :=
  if destroyed c then c
  else if distinctUntilChanged term c then commit term c
  else c.

(** The case-and-space-insensitive reading of a query: trimmed and
    case-folded (on ASCII text). *)
Definition normalised (term : jsstring) : jsstring :=
  asciiToLowerCase (trim term).

(** Writing the two sort signals. *)
Definition setSort (column : option UserKey) (direction : Direction)
  (c : UserTableComponent) : UserTableComponent :=
  {| users := users c; searchTerm := searchTerm c;
     currentPage := currentPage c; pageSize := pageSize c;
     sortColumn := column; sortDirection := direction;
     lastEmitted := lastEmitted c; destroyed := destroyed c |}.

(** [toggleSort(column)] *)
Definition toggleSort (column : UserKey) (c : UserTableComponent)
  : UserTableComponent :=
  match find (fun col => UserKey_eqb (key col) column) columnDefinitions with
  | Some col =>
      if sortable col then
        match sortColumn c with
        | Some current =>
            if UserKey_eqb current column then
              setSort (sortColumn c)
                (match sortDirection c with asc => desc | desc => asc end) c
            else setSort (Some column) asc c
        | None => setSort (Some column) asc c
        end
      else c
  | None => c
  end.

(** The keys whose values are strings, and the string under such a key. *)
Definition isTextKey (column : UserKey) : bool :=
  match column with
  | key_name | key_email => true
  | key_id | key_age => false
  end.

Definition text (column : UserKey) (u : User) : jsstring :=
  match get u column with
  | VString s => s
  | VNumber _ => []
  end.

(** How the collation ranks two users under a text sort key. *)
Definition rank (localeCompare : jsstring -> jsstring -> Z)
  (column : UserKey) (a b : User) : Z :=
  localeCompare (text column a) (text column b).

(** [a] occurs somewhere in front of [b]. *)
Definition precedes {A} (a b : A) (l : list A) : Prop :=
  exists l1 l2 l3, l = l1 ++ a :: l2 ++ b :: l3.

(** What a comparator says about two elements: [a] may stay in front
    of [b]; [z] and [y] are tied. *)
Definition notAbove {A} (cmp : A -> A -> Z) (a b : A) : Prop :=
  cmp a b <= 0.

Definition tied {A} (cmp : A -> A -> Z) (z y : A) : bool :=
  cmp z y =? 0.

(** The page count in the specification's words:
    [max(1, ceil(n / pageSize))]. *)
Definition specTotalPages (n pageSize : Z) : Z :=
  Z.max 1 (Qceiling (inject_Z n / inject_Z pageSize)).

(** What the user can do to the table, and the component after it. *)
Inductive Operation :=
| GoToPage (page : Z)
| NextPage
| PreviousPage
| ToggleSort (column : UserKey)
| SearchSettled (term : jsstring).

Definition perform (toLowerCase : jsstring -> jsstring)
  (localeCompare : jsstring -> jsstring -> Z)
  (op : Operation) (c : UserTableComponent) : UserTableComponent :=
  match op with
  | GoToPage page => goToPage toLowerCase localeCompare page c
  | NextPage => nextPage toLowerCase localeCompare c
  | PreviousPage => previousPage c
  | ToggleSort column => toggleSort column c
  | SearchSettled term => searchSettled term c
  end.

(** The page shown when [currentPage] is [page]. *)
Definition pageAt (toLowerCase : jsstring -> jsstring)
  (localeCompare : jsstring -> jsstring -> Z)
  (page : Z) (c : UserTableComponent) : list User :=
  paginatedUsers toLowerCase localeCompare (setCurrentPage page c).

(** The number under a numeric key. *)
Definition number (column : UserKey) (u : User) : Z :=
  match get u column with
  | VNumber n => n
  | VString _ => 0
  end.

(** The page shown exists, or it is page 1 of an empty result. *)
Definition pageInRange (toLowerCase : jsstring -> jsstring)
  (localeCompare : jsstring -> jsstring -> Z)
  (c : UserTableComponent) : Prop :=
  1 <= currentPage c <= Z.max 1 (totalPages toLowerCase localeCompare c).

(** A session: operations performed one after the other. *)
Definition performAll (toLowerCase : jsstring -> jsstring)
  (localeCompare : jsstring -> jsstring -> Z)
  (ops : list Operation) (c : UserTableComponent) : UserTableComponent :=
  fold_left (fun c' op => perform toLowerCase localeCompare op c') ops c.

(** The active query is the value the search pipe let through last. *)
Definition queryIsLastEmitted (c : UserTableComponent) : Prop :=
  forall term, lastEmitted c = Some term -> searchTerm c = term.

(** The operations that only move between pages. *)
Definition isNavigation (op : Operation) : bool :=
  match op with
  | GoToPage _ | NextPage | PreviousPage => true
  | ToggleSort _ | SearchSettled _ => false
  end.

End UserTable.

(* ================================================================== *)
(** ** Facts about JavaScript strings *)
(* ================================================================== *)

Module JSFacts.
Import JS.

Lemma streq_true_iff (a b : jsstring) : streq a b = true <-> a = b.
Proof.
  revert b; induction a as [|x a IH]; intros [|y b]; simpl;
    try (split; [discriminate | congruence]); try tauto.
  rewrite andb_true_iff, N.eqb_eq, IH.
  split; [intros [-> ->]; reflexivity | intros H; inversion H; auto].
Qed.

Lemma streq_refl (a : jsstring) : streq a a = true.
Proof. apply streq_true_iff; reflexivity. Qed.

Lemma streq_false_iff (a b : jsstring) : streq a b = false <-> a <> b.
Proof.
  rewrite <- streq_true_iff. destruct (streq a b); split; congruence.
Qed.

Lemma str_inj (s t : string) : str s = str t -> s = t.
Proof.
  unfold str; intros H.
  rewrite <- (string_of_list_ascii_of_string s),
          <- (string_of_list_ascii_of_string t).
  f_equal.
  revert H. generalize (list_ascii_of_string s) (list_ascii_of_string t).
  induction l as [|x l IH]; intros [|y l']; simpl; try discriminate; auto.
  intros H; inversion H as [[Hxy Hl]].
  f_equal; [| apply IH; assumption].
  rewrite <- (ascii_N_embedding x), <- (ascii_N_embedding y), Hxy.
  reflexivity.
Qed.

Lemma to_int_printable (n : Z) :
  Z.to_int n <> Decimal.Pos Decimal.Nil /\
  Z.to_int n <> Decimal.Neg Decimal.Nil.
Proof.
  destruct n as [|p|p]; simpl; split; try discriminate;
    intros H; inversion H as [Hp];
    exact (Unsigned.to_uint_nonnil p Hp).
Qed.

(** Two clock readings print to the same digits only if they are the
    same reading. *)
Lemma number_toString_inj (n m : Z) :
  number_toString n = number_toString m -> n = m.
Proof.
  unfold number_toString; intros H.
  apply str_inj in H.
  apply DecimalZ.to_int_inj.
  destruct (to_int_printable n) as [Hn1 Hn2].
  destruct (to_int_printable m) as [Hm1 Hm2].
  pose proof (NilZero.isi _ Hn1 Hn2) as En.
  pose proof (NilZero.isi _ Hm1 Hm2) as Em.
  rewrite H in En. rewrite En in Em. inversion Em; reflexivity.
Qed.

Lemma trimStart_blank (s : jsstring) :
  Forall (fun c => isWhiteSpace c = true) s -> trimStart s = [].
Proof.
  induction 1 as [|c s Hc _ IH]; simpl; [reflexivity|].
  rewrite Hc; exact IH.
Qed.

Lemma trim_blank (s : jsstring) :
  Forall (fun c => isWhiteSpace c = true) s -> trim s = [].
Proof.
  intros H; unfold trim, trimEnd.
  rewrite (trimStart_blank s H); reflexivity.
Qed.

Lemma trimStart_nil_blank (s : jsstring) :
  trimStart s = [] -> Forall (fun c => isWhiteSpace c = true) s.
Proof.
  induction s as [|c s IH]; simpl; [constructor|].
  destruct (isWhiteSpace c) eqn:Hc; [|discriminate].
  intros H; constructor; auto.
Qed.

(** [!s.trim()] holds exactly for the strings made of white space. *)
Lemma falsy_trim_iff (s : jsstring) :
  falsy (trim s) = true <-> Forall (fun c => isWhiteSpace c = true) s.
Proof.
  split.
  - unfold trim, trimEnd; intros H.
    apply trimStart_nil_blank.
    destruct (trimStart s) as [|c t] eqn:E; [reflexivity|].
    exfalso.
    assert (Hne : trimStart (rev (c :: t)) <> []).
    { assert (Hc : isWhiteSpace c = false).
      { clear H. induction s as [|d s IH]; simpl in E; [discriminate|].
        destruct (isWhiteSpace d) eqn:Hd; [auto|].
        inversion E; subst; assumption. }
      clear E H. simpl.
      generalize (rev t) as r. induction r as [|d r IH]; simpl.
      - rewrite Hc; discriminate.
      - destruct (isWhiteSpace d); [exact IH | discriminate]. }
    destruct (trimStart (rev (c :: t))) as [|d r] eqn:E'; [congruence|].
    simpl in H. destruct (rev r); simpl in H; discriminate.
  - intros H; rewrite trim_blank; auto.
Qed.

End JSFacts.

(* ================================================================== *)
(** ** The reducer *)
(* ================================================================== *)

Module ReducerFacts.
Import JS JSFacts TodoStore.

Lemma flip_id (i : jsstring) (todo : Todo) : id (flip i todo) = id todo.
Proof. unfold flip; destruct (streq (id todo) i); reflexivity. Qed.

Lemma flip_flip (i : jsstring) (todo : Todo) : flip i (flip i todo) = todo.
Proof.
  unfold flip. destruct (streq (id todo) i) eqn:E; simpl; rewrite E.
  - destruct todo as [a t c]; simpl; rewrite negb_involutive; reflexivity.
  - reflexivity.
Qed.

Lemma toggle_todos (now : Z) (s : TodosState) (i : jsstring) :
  todos (todosReducer now s (toggleTodo i)) = map (flip i) (todos s).
Proof. reflexivity. Qed.

(** Removing records leaves the remaining ids distinct. *)
Lemma deleteTodo_ids_distinct (i : jsstring) (ts : list Todo) :
  NoDup (map id ts) ->
  NoDup (map id (filter (fun todo => negb (streq (id todo) i)) ts)).
Proof.
  intros Hts. induction ts as [|t ts IH]; [constructor|].
  cbn [filter map] in *.
  apply NoDup_cons_iff in Hts as [Hfresh Hrest].
  destruct (negb (streq (id t) i)); [|exact (IH Hrest)].
  cbn [map]. apply NoDup_cons; [|exact (IH Hrest)].
  rewrite in_map_iff in *.
  intros (u & Hu & Hin). apply Hfresh.
  exists u; split; [exact Hu|].
  apply filter_In in Hin; exact (proj1 Hin).
Qed.

(** C7. Reducing [loadTodos] (LoadRequested) from any state gives
    [loading = true] and [error = null], whatever they were before, and
    leaves [todos] as it was. *)
Theorem loadTodos_sets_loading_clears_error :
  forall (now : Z) (s : TodosState),
    loading (todosReducer now s loadTodos) = true /\
    error (todosReducer now s loadTodos) = None /\
    todos (todosReducer now s loadTodos) = todos s.
Proof. intros now s; simpl; repeat split. Qed.

(** C8. Toggle is an involution: reducing [toggleTodo id] twice in a
    row gives back the state it started from, so every record's
    [completed] field and the whole [todos] list are as before. *)
Theorem toggleTodo_involution :
  forall (now1 now2 : Z) (s : TodosState) (i : jsstring),
    todosReducer now2 (todosReducer now1 s (toggleTodo i)) (toggleTodo i) = s.
Proof.
  intros now1 now2 [ts l e] i.
  unfold todosReducer; simpl. f_equal.
  change (map (flip i) (map (flip i) ts) = ts).
  rewrite map_map.
  induction ts as [|t ts IH]; simpl; [reflexivity|].
  rewrite flip_flip, IH; reflexivity.
Qed.

(** C10. Reducing [loadTodosSuccess todos] replaces [todos] and sets
    [loading] to false; [error] is exactly what it was, so an error set
    earlier survives a successful load result. *)
Theorem loadTodosSuccess_frame :
  forall (now : Z) (s : TodosState) (ts : list Todo),
    error (todosReducer now s (loadTodosSuccess ts)) = error s /\
    todos (todosReducer now s (loadTodosSuccess ts)) = ts /\
    loading (todosReducer now s (loadTodosSuccess ts)) = false.
Proof. intros now s ts; simpl; repeat split. Qed.

(** An error set by a failed load is still there after a later
    successful load result. *)
Example error_survives_success :
  error (todosReducer 0
           (todosReducer 0 initialState (loadTodosFailure (str "boom")))
           (loadTodosSuccess [])) = Some (str "boom").
Proof. reflexivity. Qed.

(** Handlers other than [addTodo] never look at the clock. *)
Lemma reducer_clock_irrelevant (now1 now2 : Z) (s : TodosState) (a : Action) :
  isAddTodo a = false -> todosReducer now1 s a = todosReducer now2 s a.
Proof. destruct a; simpl; intros H; try reflexivity; discriminate. Qed.

(** The [addTodo] handler gives equal states only for equal clock
    readings. *)
Lemma addTodo_clock_sensitive (now1 now2 : Z) (s : TodosState) (t : jsstring) :
  todosReducer now1 s (addTodo t) = todosReducer now2 s (addTodo t)
  <-> now1 = now2.
Proof.
  split; [|intros ->; reflexivity].
  simpl; intros H. injection H as H.
  apply app_inv_head in H. inversion H as [Hid].
  apply number_toString_inj; assumption.
Qed.

(** C1, as the code has it. Two replays of one command sequence from
    one state end in the same state whenever the clock readings agree
    at the steps that reduce [addTodo]; the id of the appended record
    is the decimal print of the clock reading, so a single [addTodo]
    gives equal states exactly when the two readings are equal. *)
Theorem replay_deterministic_given_clock :
  forall (cmds : list Action) (clock1 clock2 : nat -> Z) (k : nat)
         (s : TodosState),
    (forall i a, nth_error cmds i = Some a -> isAddTodo a = true ->
                 clock1 (k + i)%nat = clock2 (k + i)%nat) ->
    replay clock1 k s cmds = replay clock2 k s cmds /\
    (forall t n1 n2,
        todosReducer n1 s (addTodo t) = todosReducer n2 s (addTodo t)
        <-> n1 = n2).
Proof.
  intros cmds clock1 clock2 k s H; split;
    [| intros; apply addTodo_clock_sensitive].
  revert k s H; induction cmds as [|a cmds IH]; intros k s H; simpl;
    [reflexivity|].
  assert (E : todosReducer (clock1 k) s a = todosReducer (clock2 k) s a).
  { destruct (isAddTodo a) eqn:Ea.
    - pose proof (H 0%nat a eq_refl Ea) as Hk.
      rewrite Nat.add_0_r in Hk; rewrite Hk; reflexivity.
    - apply reducer_clock_irrelevant; assumption. }
  rewrite E. apply IH.
  intros i b Hi Hb.
  pose proof (H (S i) b Hi Hb) as Hk.
  rewrite Nat.add_succ_r in Hk; exact Hk.
Qed.

Lemma replay_deterministic_given_clock_witness :
  replay (fun _ => 1700000000000) 0 initialState
         [loadTodos; addTodo (str "a"); toggleTodo (str "1700000000000")]
  = replay (fun k => match k with 1%nat => 1700000000000 | _ => 7 end)
         0 initialState
         [loadTodos; addTodo (str "a"); toggleTodo (str "1700000000000")].
Proof.
  apply (replay_deterministic_given_clock
           [loadTodos; addTodo (str "a"); toggleTodo (str "1700000000000")]
           (fun _ => 1700000000000)
           (fun k => match k with 1%nat => 1700000000000 | _ => 7 end)
           0%nat initialState).
  intros [|[|[|i]]] a Hi Ha; simpl in Hi; try reflexivity.
  - inversion Hi; subst; discriminate.
  - inversion Hi; subst; discriminate.
  - destruct i; discriminate.
Defined.

(** C1 as stated fails: the same [addTodo] reduced from the same state
    at two different clock readings gives two different states. *)
Lemma replay_not_deterministic :
  ~ (forall (clock1 clock2 : nat -> Z) (s : TodosState) (cmds : list Action),
        replay clock1 0 s cmds = replay clock2 0 s cmds).
Proof.
  intros H.
  specialize (H (fun _ => 1700000000000) (fun _ => 1700000000001)
                initialState [addTodo (str "a")]).
  vm_compute in H. discriminate H.
Qed.

(** C2, as the code has it. Distinct ids stay distinct under
    [loadTodos], [loadTodosFailure], [toggleTodo] and [deleteTodo];
    under [loadTodosSuccess] when the payload's ids are distinct; under
    [addTodo] when the print of the clock reading is not yet an id. *)
Theorem reducer_preserves_distinct_ids :
  forall (now : Z) (s : TodosState) (a : Action),
    NoDup (ids s) ->
    match a with
    | loadTodosSuccess ts => NoDup (map id ts)
    | addTodo _ => ~ In (number_toString now) (ids s)
    | _ => True
    end ->
    NoDup (ids (todosReducer now s a)).
Proof.
  intros now s a Hs Ha; unfold ids in *.
  destruct a as [t|i|i| |ts|e]; simpl; auto.
  - rewrite map_app; simpl.
    apply NoDup_app; [assumption | repeat constructor; auto | ].
    intros x Hx [<-|[]]; auto.
  - change (NoDup (map id (map (flip i) (todos s)))).
    rewrite map_map.
    rewrite (map_ext _ id (flip_id i)); assumption.
  - apply deleteTodo_ids_distinct; assumption.
Qed.

Lemma reducer_preserves_distinct_ids_witness :
  NoDup (ids (todosReducer 1700000000000
                {| todos := [mkTodo (str "1") (str "Learn X") true];
                   loading := false; error := None |}
                (addTodo (str "Learn Y")))).
Proof.
  apply (reducer_preserves_distinct_ids 1700000000000
           {| todos := [mkTodo (str "1") (str "Learn X") true];
              loading := false; error := None |}
           (addTodo (str "Learn Y"))).
  - repeat constructor; simpl; tauto.
  - simpl. intros [H|[]]. vm_compute in H. discriminate H.
Defined.

(** C2 as stated fails: a state with distinct ids is taken to one with
    a repeated id, by [addTodo] when the clock prints to an id that is
    already there (two adds within one millisecond do that), and by
    [loadTodosSuccess] when the payload repeats an id. *)
Lemma reducer_can_duplicate_ids :
  let s := todosReducer 1700000000000 initialState (addTodo (str "a")) in
  NoDup (ids s) /\
  ~ NoDup (ids (todosReducer 1700000000000 s (addTodo (str "b")))) /\
  ~ NoDup (ids (todosReducer 0 s
                  (loadTodosSuccess [mkTodo (str "1") (str "a") false;
                                     mkTodo (str "1") (str "b") false]))).
Proof.
  simpl; repeat split.
  - repeat constructor; simpl; tauto.
  - intros H; inversion H as [|? ? Hx _]; apply Hx; simpl; auto.
  - intros H; inversion H as [|? ? Hx _]; apply Hx; simpl; auto.
Qed.

End ReducerFacts.

(* ================================================================== *)
(** ** Facade, component and effects *)
(* ================================================================== *)

Module StoreFacts.
Import JS JSFacts TodoStore.

(** *** Validation of blank titles *)

(** C3, as the code has it. The blank-title check is in the [Todos]
    component: [add()] with a [newTitle] made of white space (or empty)
    returns before it calls the facade, so nothing is dispatched and
    neither the store nor the component changes. The facade's [addTodo]
    does not validate: it dispatches [addTodo title] for every title. *)
Theorem blank_title_stopped_in_component :
  forall (now : Z) (c : Todos),
    Forall (fun ch => isWhiteSpace ch = true) (newTitle c) ->
    add now c = c /\
    (forall (title : jsstring) (sys : System),
        actions (TodosFacade.addTodo now title sys)
          = actions sys ++ [addTodo title] /\
        state (TodosFacade.addTodo now title sys)
          = todosReducer now (state sys) (addTodo title)).
Proof.
  intros now c H; split.
  - unfold add. rewrite (trim_blank _ H); reflexivity.
  - intros title sys; split; reflexivity.
Qed.

Lemma blank_title_stopped_in_component_witness :
  add 1700000000000
      {| newTitle := str "   "; facade := initialSystem initialState |}
  = {| newTitle := str "   "; facade := initialSystem initialState |}.
Proof.
  apply (blank_title_stopped_in_component 1700000000000
           {| newTitle := str "   "; facade := initialSystem initialState |}).
  simpl. repeat constructor.
Defined.

(** C3 as stated fails: handed a title of three spaces, the facade
    dispatches [addTodo] and the store gets a new record. *)
Lemma facade_addTodo_blank_not_noop :
  Forall (fun ch => isWhiteSpace ch = true) (str "   ") /\
  actions (TodosFacade.addTodo 1700000000000 (str "   ")
             (initialSystem initialState))
    = [addTodo (str "   ")] /\
  todos (state (TodosFacade.addTodo 1700000000000 (str "   ")
                  (initialSystem initialState)))
    = [mkTodo (str "1700000000000") (str "   ") false] /\
  TodosFacade.addTodo 1700000000000 (str "   ") (initialSystem initialState)
    <> initialSystem initialState.
Proof.
  repeat split.
  - simpl. repeat constructor.
  - intros H. vm_compute in H. discriminate H.
Qed.

(** A non-blank title goes through, trimmed, and the input is reset. *)
Example add_trims_and_dispatches :
  add 5 {| newTitle := str " Learn X "; facade := initialSystem initialState |}
  = {| newTitle := [];
       facade := dispatch 5 (addTodo (str "Learn X"))
                   (initialSystem initialState) |}.
Proof. reflexivity. Qed.

(** *** Supersession inside a lane *)

Lemma inner_setInner (l l' : Lane) (v : option nat) (e : Effects) :
  inner l' (setInner l v e) = if Lane_eqb l l' then v else inner l' e.
Proof. destruct l, l'; reflexivity. Qed.

Lemma issued_setInner (l : Lane) (v : option nat) (e : Effects) :
  issued (setInner l v e) = issued e.
Proof. destruct l; reflexivity. Qed.

Lemma inner_switchMap (l l' : Lane) (e : Effects) :
  inner l' (switchMap l e)
  = if Lane_eqb l l' then Some (issued e) else inner l' e.
Proof. destruct l, l'; reflexivity. Qed.

Lemma issued_switchMap (l : Lane) (e : Effects) :
  issued (switchMap l e) = S (issued e).
Proof. destruct l; reflexivity. Qed.

Lemma holds_true_iff (req : nat) (o : option nat) :
  holds req o = true <-> o = Some req.
Proof.
  destruct o as [r|]; simpl; [|split; discriminate].
  rewrite Nat.eqb_eq; split; congruence.
Qed.

Lemma laneOf_Some (req : nat) (e : Effects) (l : Lane) :
  laneOf req e = Some l -> inner l e = Some req.
Proof.
  unfold laneOf.
  destruct (holds req (loadTodos_fx e)) eqn:H1;
    [intros H; inversion H; subst; apply holds_true_iff; assumption|].
  destruct (holds req (addTodo_fx e)) eqn:H2;
    [intros H; inversion H; subst; apply holds_true_iff; assumption|].
  destruct (holds req (toggleTodo_fx e)) eqn:H3;
    [intros H; inversion H; subst; apply holds_true_iff; assumption|].
  destruct (holds req (deleteTodo_fx e)) eqn:H4;
    [intros H; inversion H; subst; apply holds_true_iff; assumption|].
  discriminate.
Qed.

Lemma laneOf_None (req : nat) (e : Effects) :
  (forall l, inner l e <> Some req) -> laneOf req e = None.
Proof.
  intros H. destruct (laneOf req e) as [l|] eqn:E; [|reflexivity].
  exfalso; exact (H l (laneOf_Some _ _ _ E)).
Qed.

(** What one event can do to the effects: nothing, a [switchMap], a
    completion, or a completion followed by a [switchMap]. *)
Lemma effects_step (sys : System) (ev : Event) :
  effects (step sys ev) = effects sys \/
  (exists l, effects (step sys ev) = switchMap l (effects sys)) \/
  (exists l, effects (step sys ev) = setInner l None (effects sys)) \/
  (exists l l', effects (step sys ev)
                = switchMap l' (setInner l None (effects sys))).
Proof.
  destruct ev as [now a | now req r]; simpl.
  - unfold dispatch; simpl. destruct (ofType a) as [l|]; eauto.
  - unfold settle. destruct (laneOf req (effects sys)) as [l|]; [|auto].
    unfold dispatch; simpl.
    destruct (ofType (followUp l r)) as [l'|]; eauto 6.
Qed.

Section Invariants.
Variable P : Effects -> Prop.
Hypothesis P_switchMap : forall l e, P e -> P (switchMap l e).
Hypothesis P_complete : forall l e, P e -> P (setInner l None e).

Lemma invariant_step (sys : System) (ev : Event) :
  P (effects sys) -> P (effects (step sys ev)).
Proof.
  intros H.
  destruct (effects_step sys ev) as [E|[[l E]|[[l E]|[l [l' E]]]]];
    rewrite E; auto.
Qed.

Lemma invariant_run (evs : list Event) (sys : System) :
  P (effects sys) -> P (effects (run evs sys)).
Proof.
  revert sys; induction evs as [|ev evs IH]; intros sys H; simpl; auto.
  apply IH, invariant_step, H.
Qed.
End Invariants.

Lemma wellFormed_run (evs : list Event) (sys : System) :
  wellFormed (effects sys) -> wellFormed (effects (run evs sys)).
Proof.
  apply invariant_run; unfold wellFormed; intros l e H l' q.
  - rewrite inner_switchMap, issued_switchMap.
    destruct (Lane_eqb l l'); intros Hq.
    + inversion Hq; lia.
    + specialize (H l' q Hq); lia.
  - rewrite inner_setInner, issued_setInner.
    destruct (Lane_eqb l l'); [discriminate | apply H].
Qed.

Lemma onlyLoadHolds_run (r : nat) (evs : list Event) (sys : System) :
  onlyLoadHolds r (effects sys) -> onlyLoadHolds r (effects (run evs sys)).
Proof.
  apply invariant_run; unfold onlyLoadHolds; intros l e [Hr H]; split.
  - rewrite issued_switchMap; lia.
  - intros l' Hl'. rewrite inner_switchMap.
    destruct (Lane_eqb l l'); [intros Hq; inversion Hq; lia | auto].
  - rewrite issued_setInner; assumption.
  - intros l' Hl'. rewrite inner_setInner.
    destruct (Lane_eqb l l'); [discriminate | auto].
Qed.

Lemma superseded_run (r : nat) (evs : list Event) (sys : System) :
  superseded r (effects sys) -> superseded r (effects (run evs sys)).
Proof.
  apply invariant_run; unfold superseded; intros l e [Hr [H1 H2]];
    repeat split.
  - rewrite issued_switchMap; lia.
  - intros l'. rewrite inner_switchMap.
    destruct (Lane_eqb l l'); [intros Hq; inversion Hq; lia | auto].
  - intros q. rewrite inner_switchMap.
    destruct (Lane_eqb l LoadLane); [intros Hq; inversion Hq; lia | auto].
  - rewrite issued_setInner; assumption.
  - intros l'. rewrite inner_setInner.
    destruct (Lane_eqb l l'); [discriminate | auto].
  - intros q. rewrite inner_setInner.
    destruct (Lane_eqb l LoadLane); [discriminate | auto].
Qed.

Lemma wellFormed_initial (s : TodosState) :
  wellFormed (effects (initialSystem s)).
Proof. intros [] q H; discriminate H. Qed.

(** Two [loadTodos] dispatches made from outside the effects, with
    any events before, between and after them. The call issued for
    the first one is no longer observed once the second is dispatched:
    when it settles no follow-up action is dispatched and the system
    is exactly what it was. *)
Lemma explicit_loads_supersede :
  forall (s0 : TodosState) (es0 es1 es2 : list Event)
         (now1 now2 now3 : Z) (r : Settlement),
    let sys0 := run es0 (initialSystem s0) in
    let first := issued (effects sys0) in
    let sys :=
      run es2 (dispatch now2 loadTodos
                 (run es1 (dispatch now1 loadTodos sys0))) in
    settle now3 first r sys = sys /\
    actions (settle now3 first r sys) = actions sys /\
    state (settle now3 first r sys) = state sys /\
    (forall req, laneOf req (effects sys) = Some LoadLane ->
                 (first < req)%nat).
Proof.
  intros s0 es0 es1 es2 now1 now2 now3 r sys0 first sys.
  assert (W0 : wellFormed (effects sys0))
    by (apply wellFormed_run, wellFormed_initial).
  assert (A1 : onlyLoadHolds first (effects (dispatch now1 loadTodos sys0))).
  { split; simpl.
    - fold first; lia.
    - intros l Hl Hq. destruct l; try congruence; simpl in Hq;
        [ apply (W0 AddLane) in Hq | apply (W0 ToggleLane) in Hq
        | apply (W0 DeleteLane) in Hq ];
        unfold first in Hq; lia. }
  pose proof (onlyLoadHolds_run first es1 _ A1) as [A2 A3].
  set (sys1 := run es1 (dispatch now1 loadTodos sys0)) in *.
  assert (B1 : superseded first (effects (dispatch now2 loadTodos sys1))).
  { repeat split; simpl.
    - lia.
    - intros l Hq. destruct l; simpl in Hq.
      + inversion Hq; lia.
      + apply (A3 AddLane); [discriminate | exact Hq].
      + apply (A3 ToggleLane); [discriminate | exact Hq].
      + apply (A3 DeleteLane); [discriminate | exact Hq].
    - intros q Hq; inversion Hq; lia. }
  pose proof (superseded_run first es2 _ B1) as [B2 [B3 B4]].
  fold sys in B2, B3, B4.
  assert (E : settle now3 first r sys = sys).
  { unfold settle. rewrite (laneOf_None _ _ B3); reflexivity. }
  rewrite E; repeat split.
  intros req Hreq. apply laneOf_Some in Hreq. apply B4; exact Hreq.
Qed.

(** *** Every pair of loads in the actions stream *)

Lemma Lane_eqb_sound (a b : Lane) : Lane_eqb a b = true <-> a = b.
Proof. destruct a, b; split; try discriminate; reflexivity. Qed.

Lemma triggers_app (l1 l2 : list Action) :
  triggers (l1 ++ l2) = (triggers l1 + triggers l2)%nat.
Proof. unfold triggers. rewrite filter_app, length_app. reflexivity. Qed.

Lemma triggers_snoc (l : list Action) (a : Action) :
  triggers (l ++ [a]) = (triggers l + (if isTrigger a then 1 else 0))%nat.
Proof.
  rewrite triggers_app. unfold triggers at 2. simpl.
  destruct (isTrigger a); reflexivity.
Qed.

Lemma triggers_cons (a : Action) (l : list Action) :
  triggers (a :: l) = ((if isTrigger a then 1 else 0) + triggers l)%nat.
Proof. unfold triggers. simpl. destruct (isTrigger a); reflexivity. Qed.

(** Two triggering actions with the same number of triggering actions
    in front of them stand at the same place of the stream. *)
Lemma trigger_place_unique (pre p1 post q1 : list Action) (a b : Action) :
  pre ++ a :: post = p1 ++ b :: q1 ->
  isTrigger a = true -> isTrigger b = true ->
  triggers pre = triggers p1 ->
  pre = p1 /\ a = b /\ post = q1.
Proof.
  revert p1; induction pre as [|x pre IH]; intros [|y p1] E Ha Hb Ht.
  - simpl in E. inversion E. auto.
  - simpl in E. inversion E; subst y.
    rewrite triggers_cons, Ha in Ht. discriminate Ht.
  - simpl in E. inversion E; subst x.
    rewrite triggers_cons, Hb in Ht. discriminate Ht.
  - simpl in E. inversion E; subst y.
    rewrite !triggers_cons in Ht.
    destruct (IH p1 H1 Ha Hb ltac:(lia)) as (-> & -> & ->). auto.
Qed.

Lemma streamNumbered_initial (s : TodosState) :
  streamNumbered (initialSystem s).
Proof. split; [reflexivity|]. intros [] q H; discriminate H. Qed.

Lemma streamNumbered_dispatch (now : Z) (a : Action) (sys : System) :
  streamNumbered sys -> streamNumbered (dispatch now a sys).
Proof.
  intros [Hn Hl]. unfold streamNumbered, dispatch; simpl.
  rewrite triggers_snoc. unfold isTrigger.
  destruct (ofType a) as [l|] eqn:Ea.
  - split; [rewrite issued_switchMap; lia|].
    intros l' q. rewrite inner_switchMap.
    destruct (Lane_eqb l l') eqn:El.
    + apply Lane_eqb_sound in El. subst l'. intros H; inversion H.
      exists (actions sys), a, []. repeat split; auto; intros b [].
    + intros H. destruct (Hl l' q H) as (pre & a0 & post & E & Ha0 & Hq & Hp).
      exists pre, a0, (post ++ [a]). rewrite E, <- app_assoc.
      repeat split; auto.
      intros b Hb. apply in_app_or in Hb as [Hb|[<-|[]]]; [auto|].
      rewrite Ea. intros H'; inversion H'; subst l'.
      rewrite (proj2 (Lane_eqb_sound l l) eq_refl) in El. discriminate El.
  - split; [lia|].
    intros l' q H. destruct (Hl l' q H) as (pre & a0 & post & E & Ha0 & Hq & Hp).
    exists pre, a0, (post ++ [a]). rewrite E, <- app_assoc.
    repeat split; auto.
    intros b Hb. apply in_app_or in Hb as [Hb|[<-|[]]]; [auto|].
    rewrite Ea. discriminate.
Qed.

Lemma streamNumbered_release (l : Lane) (sys : System) :
  streamNumbered sys ->
  streamNumbered {| state := state sys; actions := actions sys;
                    effects := setInner l None (effects sys) |}.
Proof.
  intros [Hn Hl]. split; simpl.
  - rewrite issued_setInner. exact Hn.
  - intros l' q. rewrite inner_setInner.
    destruct (Lane_eqb l l'); [discriminate | apply Hl].
Qed.

Lemma streamNumbered_run (evs : list Event) (sys : System) :
  streamNumbered sys -> streamNumbered (run evs sys).
Proof.
  revert sys; induction evs as [|ev evs IH]; intros sys H; [exact H|].
  simpl. apply IH. destruct ev as [now a | now req r]; simpl.
  - apply streamNumbered_dispatch, H.
  - unfold settle. destruct (laneOf req (effects sys)) as [l|]; [|exact H].
    apply streamNumbered_dispatch, streamNumbered_release, H.
Qed.

(** C5. Take any run of dispatches and settlements from the initial
    store, and any two [loadTodos] actions in its actions stream,
    whether the facade dispatched them or an effect did as the
    follow-up of an add, toggle or delete call. The call issued for
    the earlier of the two is superseded: when it settles, with a
    value or with an error, no follow-up action is dispatched and the
    system (feature state, actions stream, subscriptions) is exactly
    what it was. The only call the load lane can still follow up is
    the one issued for the last [loadTodos] of the stream. Calls are
    numbered by the stream: the call an action subscribes its effect
    to is the number of triggering actions dispatched before it. *)
Theorem superseded_load_never_followed_up :
  forall (s0 : TodosState) (es : list Event),
    let sys := run es (initialSystem s0) in
    (forall now a l,
        ofType a = Some l ->
        inner l (effects (dispatch now a sys))
          = Some (triggers (actions sys))) /\
    (forall p1 p2 p3 now r,
        actions sys = p1 ++ loadTodos :: p2 ++ loadTodos :: p3 ->
        settle now (triggers p1) r sys = sys) /\
    (forall req,
        laneOf req (effects sys) = Some LoadLane ->
        exists pre post,
          actions sys = pre ++ loadTodos :: post /\
          triggers pre = req /\ ~ In loadTodos post).
Proof.
  intros s0 es sys.
  assert (Hs : streamNumbered sys)
    by (apply streamNumbered_run, streamNumbered_initial).
  destruct Hs as [Hn Hl]. split; [|split].
  - intros now a l Ha. unfold dispatch; simpl. rewrite Ha.
    rewrite inner_switchMap, (proj2 (Lane_eqb_sound l l) eq_refl), Hn.
    reflexivity.
  - intros p1 p2 p3 now r E.
    destruct (laneOf (triggers p1) (effects sys)) as [l|] eqn:L;
      [|unfold settle; rewrite L; reflexivity].
    exfalso. apply laneOf_Some in L.
    destruct (Hl l _ L) as (pre & a & post & E' & Ha & Hq & Hp).
    rewrite E in E'. symmetry in E'.
    destruct (trigger_place_unique pre p1 post (p2 ++ loadTodos :: p3)
                a loadTodos E') as (_ & Ea & Epost); auto.
    { unfold isTrigger; rewrite Ha; reflexivity. }
    subst a post. simpl in Ha.
    apply (Hp loadTodos); [apply in_elt | exact Ha].
  - intros req L. apply laneOf_Some in L.
    destruct (Hl _ _ L) as (pre & a & post & E & Ha & Hq & Hp).
    destruct a; simpl in Ha; try discriminate Ha.
    exists pre, post. repeat split; auto.
    intros Hin. apply (Hp loadTodos Hin). reflexivity.
Qed.

(** A load, then a toggle whose call settles: the toggle effect
    dispatches the second [loadTodos], and the first load's call
    (number 0) is dropped when it settles afterwards. *)
Lemma superseded_load_never_followed_up_witness :
  let sys := run [Dispatched 0 loadTodos;
                  Dispatched 1 (toggleTodo (str "1"));
                  Settled 2 1%nat (Next [])]
                 (initialSystem initialState) in
  actions sys = [loadTodos; toggleTodo (str "1"); loadTodos] /\
  settle 3 0%nat (Next [mkTodo (str "1") (str "Learn X") true]) sys = sys.
Proof.
  split; [reflexivity|].
  apply (proj1 (proj2 (superseded_load_never_followed_up initialState
                         [Dispatched 0 loadTodos;
                          Dispatched 1 (toggleTodo (str "1"));
                          Settled 2 1%nat (Next [])]))
           [] [toggleTodo (str "1")] [] 3
           (Next [mkTodo (str "1") (str "Learn X") true])).
  reflexivity.
Defined.

(** Two rapid loads from the initial store: the first call (number 0)
    settles late and is dropped; the second (number 1) is folded in. *)
Example two_rapid_loads :
  let sys := run [Dispatched 0 loadTodos; Dispatched 1 loadTodos]
                 (initialSystem initialState) in
  settle 2 0%nat (Next [mkTodo (str "1") (str "Learn X") true]) sys = sys /\
  actions (settle 2 1%nat (Next [mkTodo (str "1") (str "Learn X") true]) sys)
    = [loadTodos; loadTodos;
       loadTodosSuccess [mkTodo (str "1") (str "Learn X") true]].
Proof. split; reflexivity. Qed.

End StoreFacts.

(* ================================================================== *)
(** ** The stable sort *)
(* ================================================================== *)

Module SortFacts.
Import UserTable.

Section Comparator.
Context {A : Type}.
Variable cmp : A -> A -> Z.

(** A consistent comparator in the sense of ECMAScript: swapping the
    arguments swaps the sign, and [<= 0] is transitive. *)
Hypothesis cmp_antisym : forall a b, Z.sgn (cmp a b) = - Z.sgn (cmp b a).
Hypothesis cmp_trans :
  forall a b c, cmp a b <= 0 -> cmp b c <= 0 -> cmp a c <= 0.

Lemma cmp_refl (a : A) : cmp a a = 0.
Proof. pose proof (cmp_antisym a a); lia. Qed.

Lemma cmp_gt_le (a b : A) : 0 < cmp a b -> cmp b a <= 0.
Proof. pose proof (cmp_antisym a b); lia. Qed.

Lemma cmp_tie_sym (a b : A) : cmp a b = 0 -> cmp b a = 0.
Proof. pose proof (cmp_antisym a b); lia. Qed.

Lemma insert_perm (x : A) (l : list A) :
  Permutation (insert cmp x l) (x :: l).
Proof.
  induction l as [|y l IH]; simpl; [reflexivity|].
  destruct (cmp x y <=? 0); [reflexivity|].
  rewrite IH; apply perm_swap.
Qed.

Lemma sort_perm (l : list A) : Permutation (sort cmp l) l.
Proof.
  induction l as [|x l IH]; simpl; [reflexivity|].
  rewrite insert_perm, IH; reflexivity.
Qed.

Lemma sort_length (l : list A) :
  List.length (sort cmp l) = List.length l.
Proof. apply Permutation_length, sort_perm. Qed.

Local Abbreviation le := (notAbove cmp).

Lemma insert_sorted (x : A) (l : list A) :
  StronglySorted le l -> StronglySorted le (insert cmp x l).
Proof.
  induction 1 as [|y l Hl IH Hy]; simpl.
  - repeat constructor.
  - destruct (cmp x y <=? 0) eqn:E.
    + apply Z.leb_le in E.
      constructor; [constructor; assumption|].
      constructor; [exact E|].
      eapply Forall_impl; [|exact Hy].
      intros z Hz; exact (cmp_trans _ _ _ E Hz).
    + apply Z.leb_gt in E.
      constructor; [exact IH|].
      apply (Permutation_Forall (Permutation_sym (insert_perm x l))).
      constructor; [apply cmp_gt_le; exact E | exact Hy].
Qed.

Lemma sort_sorted (l : list A) : StronglySorted le (sort cmp l).
Proof.
  induction l as [|x l IH]; simpl; [constructor|].
  apply insert_sorted, IH.
Qed.

(** Stability: the elements tied with [z] come out in the order they
    went in. *)
Local Abbreviation tiedWith := (tied cmp).

Lemma insert_stable (z x : A) (l : list A) :
  filter (tiedWith z) (insert cmp x l) = filter (tiedWith z) (x :: l).
Proof.
  induction l as [|y l IH]; [reflexivity|].
  cbn [insert]. destruct (cmp x y <=? 0) eqn:E; [reflexivity|].
  apply Z.leb_gt in E.
  cbn [filter] in *. rewrite IH.
  destruct (tiedWith z x) eqn:Hx; [|reflexivity].
  destruct (tiedWith z y) eqn:Hy; [|reflexivity].
  exfalso. unfold tied in Hx, Hy.
  apply Z.eqb_eq in Hx, Hy.
  apply cmp_tie_sym in Hx.
  assert (cmp x y <= 0) by (apply (cmp_trans x z y); lia).
  lia.
Qed.

Lemma sort_stable (z : A) (l : list A) :
  filter (tiedWith z) (sort cmp l) = filter (tiedWith z) l.
Proof.
  induction l as [|x l IH]; [reflexivity|].
  cbn [sort]. rewrite insert_stable. cbn [filter].
  rewrite IH; reflexivity.
Qed.

(** In a sorted list an element in front of another is not above it. *)
Lemma sorted_precedes (R : A -> A -> Prop) (a b : A) (l : list A) :
  StronglySorted R l -> precedes a b l -> R a b.
Proof.
  intros Hs (l1 & l2 & l3 & ->).
  induction l1 as [|x l1 IH]; simpl in Hs;
    apply StronglySorted_inv in Hs as [Hs Hx].
  - rewrite Forall_forall in Hx. apply Hx, in_elt.
  - apply IH, Hs.
Qed.

Lemma in_precedes (a b : A) (l : list A) :
  In a l -> In b l -> a <> b -> precedes a b l \/ precedes b a l.
Proof.
  intros Ha Hb Hab.
  apply in_split in Ha as (l1 & l2 & ->).
  apply in_app_or in Hb as [Hb|[Hb|Hb]]; [|congruence|].
  - right. apply in_split in Hb as (m1 & m2 & ->).
    exists m1, m2, l2. rewrite <- app_assoc; reflexivity.
  - left. apply in_split in Hb as (m1 & m2 & ->).
    exists l1, m1, m2; reflexivity.
Qed.

(** Among the sorted elements, two that are not tied stand in the
    order of the comparator. *)
Lemma sort_precedes_iff (a b : A) (l : list A) :
  In a l -> In b l -> cmp a b <> 0 ->
  (precedes a b (sort cmp l) <-> cmp a b < 0).
Proof.
  intros Ha Hb Hab; split.
  - intros H. apply (sorted_precedes le) in H; [|apply sort_sorted].
    unfold notAbove in H; lia.
  - intros Hlt.
    assert (Hne : a <> b) by (intros ->; rewrite cmp_refl in Hab; lia).
    destruct (in_precedes a b (sort cmp l)) as [H|H]; auto.
    + apply (Permutation_in _ (Permutation_sym (sort_perm l))), Ha.
    + apply (Permutation_in _ (Permutation_sym (sort_perm l))), Hb.
    + apply (sorted_precedes le) in H; [|apply sort_sorted].
      unfold notAbove in H. pose proof (cmp_antisym a b). lia.
Qed.
End Comparator.

Section Uniqueness.
Context {A : Type}.
Variable R : A -> A -> Prop.
Hypothesis R_asym : forall a b, R a b -> R b a -> False.

(** Two arrangements of the same elements that are both sorted by an
    asymmetric relation are the same list. *)
Lemma sorted_unique (l1 l2 : list A) :
  Permutation l1 l2 -> StronglySorted R l1 -> StronglySorted R l2 ->
  l1 = l2.
Proof.
  revert l2; induction l1 as [|a l1 IH]; intros l2 Hp H1 H2.
  - apply Permutation_nil in Hp; subst; reflexivity.
  - destruct l2 as [|b l2];
      [apply Permutation_sym, Permutation_nil in Hp; discriminate|].
    apply StronglySorted_inv in H1 as [H1 Ha].
    apply StronglySorted_inv in H2 as [H2 Hb].
    rewrite Forall_forall in Ha, Hb.
    assert (Hab : a = b).
    { assert (Hin_a : In a (b :: l2))
        by (apply (Permutation_in _ Hp); left; reflexivity).
      assert (Hin_b : In b (a :: l1))
        by (apply (Permutation_in _ (Permutation_sym Hp)); left;
            reflexivity).
      destruct Hin_a as [E|Hin_a]; [auto|].
      destruct Hin_b as [E|Hin_b]; [auto|].
      exfalso; exact (R_asym _ _ (Ha _ Hin_b) (Hb _ Hin_a)). }
    subst b. f_equal. apply IH; auto.
    apply Permutation_cons_inv in Hp; exact Hp.
Qed.
End Uniqueness.

Lemma sorted_app {A} (R : A -> A -> Prop) (l1 l2 : list A) :
  StronglySorted R l1 -> StronglySorted R l2 ->
  (forall x y, In x l1 -> In y l2 -> R x y) ->
  StronglySorted R (l1 ++ l2).
Proof.
  induction 1 as [|a l1 H1 IH Ha]; intros H2 H; simpl; [exact H2|].
  constructor.
  - apply IH; [exact H2|]. intros x y Hx Hy; apply H; [right|]; assumption.
  - apply Forall_app; split; [exact Ha|].
    rewrite Forall_forall; intros y Hy; apply H; [left; reflexivity|exact Hy].
Qed.

(** Reversing a sorted list sorts it by the converse relation. *)
Lemma sorted_rev {A} (R : A -> A -> Prop) (l : list A) :
  StronglySorted R l -> StronglySorted (fun a b => R b a) (rev l).
Proof.
  induction 1 as [|a l Hl IH Ha]; simpl; [constructor|].
  apply sorted_app; [exact IH | repeat constructor |].
  intros x y Hx [<-|[]].
  rewrite Forall_forall in Ha. apply Ha, in_rev, Hx.
Qed.

Section NoTies.
Context {A : Type}.
Variable cmp : A -> A -> Z.
Hypothesis cmp_antisym : forall a b, Z.sgn (cmp a b) = - Z.sgn (cmp b a).

(** No two entries of [l] are tied: the entries are distinct and so
    are their ranks. *)
Lemma no_ties_distinct (l : list A) :
  ForallOrdPairs (fun a b => cmp a b <> 0) l ->
  NoDup l /\
  (forall a b, In a l -> In b l -> a <> b -> cmp a b <> 0).
Proof.
  intros H; split.
  - apply NoDup_iff_ForallOrdPairs.
    induction H as [|a l Ha Hl IH]; constructor; [|exact IH].
    eapply Forall_impl; [|exact Ha].
    intros b Hb ->. apply Hb, (cmp_refl cmp cmp_antisym).
  - intros a b Ha Hb Hab.
    destruct (ForallOrdPairs_In H a b Ha Hb) as [E|[E|E]];
      [congruence | exact E |].
    pose proof (cmp_antisym a b); lia.
Qed.

Lemma sorted_strict (l : list A) :
  NoDup l ->
  (forall a b, In a l -> In b l -> a <> b -> cmp a b <> 0) ->
  StronglySorted (notAbove cmp) l ->
  StronglySorted (fun a b => cmp a b < 0) l.
Proof.
  intros Hn Ht Hs; induction Hs as [|a l Hl IH Ha]; [constructor|].
  inversion Hn as [|? ? Hnotin Hn']; subst.
  constructor.
  - apply IH; [exact Hn'|].
    intros x y Hx Hy; apply Ht; right; assumption.
  - rewrite Forall_forall in *. intros y Hy.
    assert (cmp a y <> 0).
    { apply Ht; [left; reflexivity | right; exact Hy |].
      intros ->; exact (Hnotin Hy). }
    pose proof (Ha y Hy) as Hle. unfold notAbove in Hle. lia.
Qed.
End NoTies.

End SortFacts.

(* ================================================================== *)
(** ** The derived view: pagination, search commit, sorting *)
(* ================================================================== *)

Module UserTableFacts.
Import JS JSFacts UserTable SortFacts.

Lemma insert_ext {A} (f g : A -> A -> Z) (x : A) (l : list A) :
  (forall a b, f a b = g a b) -> insert f x l = insert g x l.
Proof.
  intros H; induction l as [|y l IH]; simpl; [reflexivity|].
  rewrite H, IH; reflexivity.
Qed.

Lemma sort_ext {A} (f g : A -> A -> Z) (l : list A) :
  (forall a b, f a b = g a b) -> sort f l = sort g l.
Proof.
  intros H; induction l as [|x l IH]; simpl; [reflexivity|].
  rewrite IH; apply insert_ext, H.
Qed.

Lemma insert_length {A} (f : A -> A -> Z) (x : A) (l : list A) :
  List.length (insert f x l) = S (List.length l).
Proof.
  induction l as [|y l IH]; simpl; [reflexivity|].
  destruct (f x y <=? 0); simpl; [reflexivity | rewrite IH; reflexivity].
Qed.

Lemma sort_keeps_length {A} (f : A -> A -> Z) (l : list A) :
  List.length (sort f l) = List.length l.
Proof.
  induction l as [|x l IH]; simpl; [reflexivity|].
  rewrite insert_length, IH; reflexivity.
Qed.

(** The exact ceiling of a quotient of integers. *)
Lemma ceiling_quotient (n p : Z) :
  Qceiling (inject_Z n / inject_Z p) = - ((- n) / p).
Proof.
  unfold Qceiling. f_equal. rewrite Zdiv_Qdiv.
  apply Qfloor_comp. rewrite inject_Z_opp. unfold Qdiv. ring.
Qed.

Section Pagination.
Variable toLowerCase : jsstring -> jsstring.
Variable localeCompare : jsstring -> jsstring -> Z.

Lemma sortedUsers_length (c : UserTableComponent) :
  List.length (sortedUsers toLowerCase localeCompare c)
  = List.length (filteredUsers toLowerCase c).
Proof.
  unfold sortedUsers. destruct (sortColumn c); [|reflexivity].
  apply sort_keeps_length.
Qed.

(** C4, as the code has it. With [n] the number of records left
    after filtering (sorting keeps the count) and [pageSize > 0],
    [totalPages] is [ceil(n / pageSize)]: the least count of pages
    that holds [n] records. It is 0 when nothing passes the filter;
    when at least one record passes it equals
    [max(1, ceil(n / pageSize))] and is at least 1. *)
Theorem totalPages_is_ceiling :
  forall c : UserTableComponent,
    0 < pageSize c ->
    let n := Z.of_nat (List.length (filteredUsers toLowerCase c)) in
    let pages := totalPages toLowerCase localeCompare c in
    Z.of_nat (List.length (sortedUsers toLowerCase localeCompare c)) = n /\
    (pages - 1) * pageSize c < n <= pages * pageSize c /\
    (n = 0 -> pages = 0) /\
    (0 < n -> pages = specTotalPages n (pageSize c) /\ 1 <= pages).
Proof.
  intros c Hp n pages.
  assert (Hlen : Z.of_nat (List.length
                   (sortedUsers toLowerCase localeCompare c)) = n)
    by (unfold n; rewrite sortedUsers_length; reflexivity).
  assert (E : pages = - ((- n) / pageSize c)).
  { unfold pages, totalPages. rewrite Hlen. apply ceiling_quotient. }
  pose proof (Z.div_mod (- n) (pageSize c) ltac:(lia)) as Hdm.
  pose proof (Z.mod_pos_bound (- n) (pageSize c) Hp) as Hmod.
  assert (Hb : (pages - 1) * pageSize c < n <= pages * pageSize c)
    by (rewrite E; nia).
  split; [exact Hlen|]. split; [exact Hb|]. split.
  - intros Hn. nia.
  - intros Hn. assert (1 <= pages) by nia. split; [|assumption].
    unfold specTotalPages. rewrite ceiling_quotient, <- E. lia.
Qed.
End Pagination.

Lemma totalPages_is_ceiling_witness :
  totalPages asciiToLowerCase codeUnitCompare initial = 2 /\
  totalPages asciiToLowerCase codeUnitCompare initial
    = specTotalPages 8 5.
Proof.
  pose proof (totalPages_is_ceiling asciiToLowerCase codeUnitCompare initial
                ltac:(simpl; lia)) as (_ & _ & _ & H).
  destruct (H ltac:(simpl; lia)) as [H1 _].
  split; [reflexivity | exact H1].
Defined.

(** C4 as stated fails: a query no user matches leaves no record, and
    [totalPages] is then 0, not [max(1, ceil(0 / 5)) = 1]. *)
Lemma totalPages_zero_when_nothing_matches :
  let c := searchSettled (str "zzz") initial in
  pageSize c = 5 /\
  sortedUsers asciiToLowerCase codeUnitCompare c = [] /\
  totalPages asciiToLowerCase codeUnitCompare c = 0 /\
  specTotalPages 0 (pageSize c) = 1 /\
  totalPages asciiToLowerCase codeUnitCompare c
    <> specTotalPages
         (Z.of_nat (List.length
                      (sortedUsers asciiToLowerCase codeUnitCompare c)))
         (pageSize c).
Proof.
  vm_compute. repeat split; discriminate.
Qed.

(** *** Search commit *)

(** C6, as the code has it. The search pipe compares the settled input
    with the value it let through last by [===], code unit by code
    unit, with no trimming and no case folding. An input identical to
    that value is not committed again: the component is unchanged. Any
    other input, one that differs only in case or in surrounding white
    space included, is committed as the active query and resets
    [currentPage] to 1. *)
Theorem search_dedup_is_exact_match :
  forall (term : jsstring) (c : UserTableComponent),
    (lastEmitted c = Some term -> searchSettled term c = c) /\
    (destroyed c = false -> lastEmitted c <> Some term ->
       searchSettled term c = commit term c /\
       searchTerm (searchSettled term c) = term /\
       currentPage (searchSettled term c) = 1).
Proof.
  intros term c; split.
  - intros H. unfold searchSettled, distinctUntilChanged.
    rewrite H, streq_refl. destruct (destroyed c); reflexivity.
  - intros Hd H. unfold searchSettled, distinctUntilChanged. rewrite Hd.
    destruct (lastEmitted c) as [previous|] eqn:E.
    + assert (Hne : streq previous term = false)
        by (apply streq_false_iff; congruence).
      rewrite Hne; simpl; auto.
    + simpl; auto.
Qed.

Lemma search_dedup_is_exact_match_witness :
  searchSettled (str "e") (searchSettled (str "e") initial)
    = searchSettled (str "e") initial /\
  currentPage (searchSettled (str "E")
                 (setCurrentPage 2 (searchSettled (str "e") initial))) = 1.
Proof.
  split.
  - apply (proj1 (search_dedup_is_exact_match (str "e")
                    (searchSettled (str "e") initial))).
    reflexivity.
  - apply (proj2 (search_dedup_is_exact_match (str "E")
                    (setCurrentPage 2 (searchSettled (str "e") initial)))).
    + reflexivity.
    + simpl. intros H. vm_compute in H. discriminate H.
Defined.

(** C6 as stated fails: with "e" committed and the second page shown,
    the input "E" (equal to "e" after trimming and case folding, and
    matching the same users) is committed: the active query changes
    and the view jumps back to page 1. *)
Lemma search_case_change_recommits :
  let c := goToPage asciiToLowerCase codeUnitCompare 2
             (searchSettled (str "e") initial) in
  searchTerm c = str "e" /\ currentPage c = 2 /\
  normalised (str "E") = normalised (searchTerm c) /\
  filteredUsers asciiToLowerCase (searchSettled (str "E") c)
    = filteredUsers asciiToLowerCase c /\
  searchTerm (searchSettled (str "E") c) = str "E" /\
  currentPage (searchSettled (str "E") c) = 1 /\
  searchSettled (str "E") c <> c.
Proof.
  vm_compute. repeat split; discriminate.
Qed.

(** *** Sorting *)

Lemma codeUnitCompare_antisym (a b : jsstring) :
  Z.sgn (codeUnitCompare a b) = - Z.sgn (codeUnitCompare b a).
Proof.
  revert b; induction a as [|x a IH]; intros [|y b]; simpl; try reflexivity.
  rewrite (N.compare_antisym x y).
  destruct (N.compare x y); simpl; auto.
Qed.

Lemma codeUnitCompare_trans (a b c : jsstring) :
  codeUnitCompare a b <= 0 -> codeUnitCompare b c <= 0 ->
  codeUnitCompare a c <= 0.
Proof.
  revert b c; induction a as [|x a IH]; intros [|y b] [|z c]; simpl;
    try lia.
  destruct (N.compare x y) eqn:Exy; try lia;
    destruct (N.compare y z) eqn:Eyz; try lia; intros H1 H2.
  - apply N.compare_eq in Exy, Eyz; subst.
    rewrite N.compare_refl. eapply IH; eassumption.
  - apply N.compare_eq in Exy; subst. rewrite Eyz; lia.
  - apply N.compare_eq in Eyz; subst. rewrite Exy; lia.
  - rewrite N.compare_lt_iff in Exy, Eyz.
    assert (E : N.compare x z = Lt) by (apply N.compare_lt_iff; lia).
    rewrite E; lia.
Qed.

Section Sorting.
Variable toLowerCase : jsstring -> jsstring.
Variable localeCompare : jsstring -> jsstring -> Z.

(** The collation is a consistent comparator. *)
Hypothesis localeCompare_antisym :
  forall a b, Z.sgn (localeCompare a b) = - Z.sgn (localeCompare b a).
Hypothesis localeCompare_trans :
  forall a b c, localeCompare a b <= 0 -> localeCompare b c <= 0 ->
                localeCompare a c <= 0.

Variable column : UserKey.
Hypothesis column_text : isTextKey column = true.

Local Abbreviation rank := (UserTable.rank localeCompare column).

Lemma compareUsers_asc (a b : User) :
  compareUsers localeCompare column asc a b = rank a b.
Proof.
  unfold UserTable.rank; destruct column; try discriminate; reflexivity.
Qed.

Lemma compareUsers_desc (a b : User) :
  compareUsers localeCompare column desc a b = rank b a.
Proof.
  unfold UserTable.rank; destruct column; try discriminate; reflexivity.
Qed.

Lemma rank_antisym (a b : User) : Z.sgn (rank a b) = - Z.sgn (rank b a).
Proof. apply localeCompare_antisym. Qed.

Lemma rank_trans (a b c : User) :
  rank a b <= 0 -> rank b c <= 0 -> rank a c <= 0.
Proof. apply localeCompare_trans. Qed.

Lemma knar_antisym (a b : User) : Z.sgn (rank b a) = - Z.sgn (rank a b).
Proof. apply localeCompare_antisym. Qed.

Lemma knar_trans (a b c : User) :
  rank b a <= 0 -> rank c b <= 0 -> rank c a <= 0.
Proof. intros H1 H2; exact (localeCompare_trans _ _ _ H2 H1). Qed.

Lemma sortedUsers_asc (c : UserTableComponent) :
  sortedUsers toLowerCase localeCompare (setSort (Some column) asc c)
  = sort rank (filteredUsers toLowerCase c).
Proof. apply sort_ext, compareUsers_asc. Qed.

Lemma sortedUsers_desc (c : UserTableComponent) :
  sortedUsers toLowerCase localeCompare (setSort (Some column) desc c)
  = sort (fun a b => rank b a) (filteredUsers toLowerCase c).
Proof. apply sort_ext, compareUsers_desc. Qed.

(** C9. Sort the filtered users by a text key, once ascending and
    once descending. Two users the collation does not tie stand in
    opposite orders in the two results. Users that are tied keep the
    order they had before sorting, in both results. When no two of
    the filtered users are tied, the descending result is the
    ascending one reversed. *)
Theorem ascending_descending_reversed :
  forall c : UserTableComponent,
    let rows := filteredUsers toLowerCase c in
    let ascending :=
      sortedUsers toLowerCase localeCompare (setSort (Some column) asc c) in
    let descending :=
      sortedUsers toLowerCase localeCompare (setSort (Some column) desc c) in
    (forall a b, In a rows -> In b rows -> rank a b <> 0 ->
                 (precedes a b ascending <-> precedes b a descending)) /\
    (forall z, filter (tied rank z) ascending = filter (tied rank z) rows /\
               filter (tied rank z) descending = filter (tied rank z) rows) /\
    (ForallOrdPairs (fun a b => rank a b <> 0) rows ->
     descending = rev ascending).
Proof.
  intros c rows ascending descending.
  unfold ascending, descending.
  rewrite sortedUsers_asc, sortedUsers_desc. fold rows.
  split; [|split].
  - intros a b Ha Hb Hab.
    rewrite (sort_precedes_iff rank rank_antisym rank_trans a b rows
               Ha Hb Hab).
    rewrite (sort_precedes_iff (fun x y => rank y x)
               knar_antisym knar_trans b a rows Hb Ha Hab).
    reflexivity.
  - intros z; split.
    + apply (sort_stable rank rank_antisym rank_trans).
    + assert (Hext : forall y,
                 tied rank z y = tied (fun x y => rank y x) z y).
      { intros y. unfold tied. pose proof (rank_antisym z y).
        destruct (Z.eqb_spec (rank z y) 0), (Z.eqb_spec (rank y z) 0);
          try reflexivity; lia. }
      rewrite !(filter_ext _ _ Hext).
      apply (sort_stable (fun x y => rank y x) knar_antisym knar_trans).
  - intros Hties.
    destruct (no_ties_distinct rank rank_antisym rows Hties) as [Hnd Hnt].
    apply (sorted_unique (fun a b => rank b a < 0)).
    + intros a b H1 H2. pose proof (rank_antisym a b). lia.
    + rewrite <- Permutation_rev.
      rewrite (sort_perm rank rows), (sort_perm _ rows). reflexivity.
    + apply (sorted_strict (fun x y => rank y x)).
      * apply (Permutation_NoDup (Permutation_sym (sort_perm _ rows))), Hnd.
      * intros a b Ha Hb Hab.
        apply (Permutation_in _ (sort_perm _ rows)) in Ha, Hb.
        apply Hnt; auto.
      * apply (sort_sorted _ knar_antisym knar_trans).
    + apply (sorted_rev (fun a b => rank a b < 0)).
      apply (sorted_strict rank).
      * apply (Permutation_NoDup (Permutation_sym (sort_perm _ rows))), Hnd.
      * intros a b Ha Hb Hab.
        apply (Permutation_in _ (sort_perm _ rows)) in Ha, Hb.
        apply Hnt; auto.
      * apply (sort_sorted _ rank_antisym rank_trans).
Qed.
End Sorting.

(** The eight mock users sorted by name: descending is ascending
    reversed. *)
Lemma ascending_descending_reversed_witness :
  sortedUsers asciiToLowerCase codeUnitCompare
    (setSort (Some key_name) desc initial)
  = rev (sortedUsers asciiToLowerCase codeUnitCompare
           (setSort (Some key_name) asc initial)).
Proof.
  apply (ascending_descending_reversed asciiToLowerCase codeUnitCompare
           codeUnitCompare_antisym codeUnitCompare_trans
           key_name eq_refl initial).
  repeat (constructor; [repeat (constructor; [vm_compute; discriminate|]);
                        try constructor|]).
  constructor.
Defined.

(** Two users with the same name keep their input order both ways. *)
Example tied_users_keep_order :
  let twins := [mkUser 1 (str "Eva") (str "a@x") 20;
                mkUser 2 (str "Bob") (str "b@x") 30;
                mkUser 3 (str "Eva") (str "c@x") 40] in
  let c := {| users := twins; searchTerm := []; currentPage := 1;
              pageSize := 5; sortColumn := Some key_name;
              sortDirection := asc; lastEmitted := None;
              destroyed := false |} in
  map id (sortedUsers asciiToLowerCase codeUnitCompare c) = [2; 1; 3] /\
  map id (sortedUsers asciiToLowerCase codeUnitCompare
            (setSort (Some key_name) desc c)) = [1; 3; 2].
Proof. split; reflexivity. Qed.

End UserTableFacts.

(* ================================================================== *)
(** ** More on the reducer and the selectors *)
(* ================================================================== *)

Module ReducerMore.
Import JS JSFacts TodoStore ReducerFacts.

Lemma filter_other_ids (i : jsstring) (ts : list Todo) :
  ~ In i (map id ts) ->
  filter (fun todo => negb (streq (id todo) i)) ts = ts.
Proof.
  induction ts as [|t ts IH]; intros H; [reflexivity|].
  cbn [filter map In] in *.
  assert (E : streq (id t) i = false) by (apply streq_false_iff; tauto).
  rewrite E; cbn [negb]. f_equal. apply IH; tauto.
Qed.

Lemma flip_other_ids (i : jsstring) (ts : list Todo) :
  ~ In i (map id ts) -> map (flip i) ts = ts.
Proof.
  induction ts as [|t ts IH]; intros H; [reflexivity|].
  cbn [map In] in *. unfold flip at 1.
  assert (E : streq (id t) i = false) by (apply streq_false_iff; tauto).
  rewrite E. f_equal. apply IH; tauto.
Qed.

(** X1. [deleteTodo id] leaves no record with that id, keeps every
    record with another id, does nothing at all when the id is absent,
    and deleting a second time changes nothing more. *)
Theorem deleteTodo_removes_id :
  forall (now : Z) (s : TodosState) (i : jsstring),
    let s' := todosReducer now s (deleteTodo i) in
    ~ In i (ids s') /\
    (forall t, id t <> i -> (In t (todos s') <-> In t (todos s))) /\
    (~ In i (ids s) -> s' = s) /\
    todosReducer now s' (deleteTodo i) = s'.
Proof.
  intros now s i s'. assert (Hout : ~ In i (ids s')).
  { unfold s', ids; simpl. rewrite in_map_iff.
    intros (t & Ht & Hin). apply filter_In in Hin as [_ Hin].
    apply streq_true_iff in Ht. rewrite Ht in Hin. discriminate Hin. }
  split; [exact Hout|]. split; [|split].
  - intros t Ht. unfold s'; simpl. rewrite filter_In.
    apply streq_false_iff in Ht. rewrite Ht. simpl. tauto.
  - intros H. unfold s'. destruct s as [ts l e]; simpl.
    f_equal. apply filter_other_ids, H.
  - destruct s' as [ts l e] eqn:E. simpl. f_equal.
    apply filter_other_ids. exact Hout.
Qed.

(** X2. [toggleTodo id] changes nothing but [completed] flags: ids,
    titles, [loading] and [error] are as before, records with another
    id are untouched, and with an absent id the state is unchanged. *)
Theorem toggleTodo_only_flips_completed :
  forall (now : Z) (s : TodosState) (i : jsstring),
    let s' := todosReducer now s (toggleTodo i) in
    ids s' = ids s /\
    map title (todos s') = map title (todos s) /\
    loading s' = loading s /\ error s' = error s /\
    (forall t, In t (todos s) -> id t <> i -> In t (todos s')) /\
    (~ In i (ids s) -> s' = s).
Proof.
  intros now s i s'. unfold s', ids.
  rewrite toggle_todos. repeat split.
  - rewrite map_map. apply map_ext, flip_id.
  - rewrite map_map. apply map_ext. intros t. unfold flip.
    destruct (streq (id t) i); reflexivity.
  - intros t Hin Ht. apply in_map_iff. exists t. split; [|exact Hin].
    unfold flip. apply streq_false_iff in Ht. rewrite Ht. reflexivity.
  - intros H. destruct s as [ts l e].
    change (mkState (map (flip i) ts) l e = mkState ts l e).
    f_equal. apply flip_other_ids, H.
Qed.

(** X3. [addTodo title] puts one more record at the end, with the
    title as given and not completed: the count grows by one, the new
    record is the last active one, and the completed records, the
    records already there, [loading] and [error] are as before. *)
Theorem addTodo_appends_active :
  forall (now : Z) (s : TodosState) (t : jsstring),
    let s' := todosReducer now s (addTodo t) in
    let newTodo := mkTodo (number_toString now) t false in
    selectTodosCount s' = S (selectTodosCount s) /\
    firstn (selectTodosCount s) (selectAllTodos s') = selectAllTodos s /\
    selectActiveTodos s' = selectActiveTodos s ++ [newTodo] /\
    selectCompletedTodos s' = selectCompletedTodos s /\
    loading s' = loading s /\ error s' = error s.
Proof.
  intros now s t s' newTodo.
  unfold selectTodosCount, selectActiveTodos, selectCompletedTodos,
    selectAllTodos, s'; simpl.
  repeat split.
  - rewrite length_app; simpl; lia.
  - rewrite firstn_app, Nat.sub_diag, firstn_all; simpl.
    apply app_nil_r.
  - rewrite filter_app; reflexivity.
  - rewrite filter_app; simpl. apply app_nil_r.
Qed.

(** X4. Deleting the record that [addTodo] has just appended gives the
    state back, provided the id it got was not in use already. *)
Theorem deleteTodo_undoes_addTodo :
  forall (now now' : Z) (s : TodosState) (t : jsstring),
    ~ In (number_toString now) (ids s) ->
    todosReducer now' (todosReducer now s (addTodo t))
      (deleteTodo (number_toString now)) = s.
Proof.
  intros now now' [ts l e] t H. unfold ids in H; simpl in *. f_equal.
  rewrite filter_app, (filter_other_ids _ _ H); simpl.
  rewrite streq_refl; simpl. apply app_nil_r.
Qed.

Lemma deleteTodo_undoes_addTodo_witness :
  todosReducer 9
    (todosReducer 1700000000000
       {| todos := TodosService.mockTodos; loading := false; error := None |}
       (addTodo (str "x")))
    (deleteTodo (number_toString 1700000000000))
  = {| todos := TodosService.mockTodos; loading := false; error := None |}.
Proof.
  apply (deleteTodo_undoes_addTodo 1700000000000 9
           {| todos := TodosService.mockTodos; loading := false;
              error := None |} (str "x")).
  vm_compute. intros [H|[H|[H|[]]]]; discriminate H.
Defined.

(** When the id is already taken the same two steps lose the older
    record as well. *)
Example deleteTodo_after_colliding_addTodo :
  let s := {| todos := [mkTodo (str "5") (str "old") true];
              loading := false; error := None |} in
  todos (todosReducer 0 (todosReducer 5 s (addTodo (str "new")))
           (deleteTodo (str "5"))) = [].
Proof. reflexivity. Qed.

(** X5. [toggleTodo] and [deleteTodo] commute, whatever the two ids
    are, and so do two toggles. *)
Theorem toggleTodo_deleteTodo_commute :
  forall (n1 n2 n3 n4 : Z) (s : TodosState) (i j : jsstring),
    todosReducer n2 (todosReducer n1 s (toggleTodo i)) (deleteTodo j)
      = todosReducer n4 (todosReducer n3 s (deleteTodo j)) (toggleTodo i) /\
    todosReducer n2 (todosReducer n1 s (toggleTodo i)) (toggleTodo j)
      = todosReducer n4 (todosReducer n3 s (toggleTodo j)) (toggleTodo i).
Proof.
  intros n1 n2 n3 n4 [ts l e] i j; split; simpl; f_equal.
  - change (filter (fun todo => negb (streq (id todo) j)) (map (flip i) ts)
            = map (flip i) (filter (fun todo => negb (streq (id todo) j)) ts)).
    induction ts as [|t ts IH]; [reflexivity|].
    cbn [map filter]. rewrite flip_id.
    destruct (negb (streq (id t) j)); cbn [map]; rewrite IH; reflexivity.
  - change (map (flip j) (map (flip i) ts) = map (flip i) (map (flip j) ts)).
    rewrite !map_map. apply map_ext. intros t. unfold flip.
    destruct (streq (id t) i) eqn:Ei, (streq (id t) j) eqn:Ej; simpl;
      rewrite ?Ei, ?Ej; reflexivity.
Qed.

(** X6. The completed and the active records split [todos]: every
    record is in exactly one of the two selections, each selection
    keeps the store's order, and the two counts add up to the total. *)
Theorem selectors_partition :
  forall s : TodosState,
    selectTodosCount s
      = (selectCompletedTodosCount s + List.length (selectActiveTodos s))%nat /\
    Permutation (selectCompletedTodos s ++ selectActiveTodos s)
                (selectAllTodos s) /\
    (forall t, In t (selectAllTodos s) ->
               (In t (selectCompletedTodos s) /\ completed t = true) \/
               (In t (selectActiveTodos s) /\ completed t = false)) /\
    (forall t, In t (selectCompletedTodos s) -> In t (selectActiveTodos s) ->
               False).
Proof.
  intros s.
  unfold selectTodosCount, selectCompletedTodosCount, selectCompletedTodos,
    selectActiveTodos, selectAllTodos.
  generalize (todos s) as ts. intros ts.
  assert (P : Permutation
                (filter (fun todo => completed todo) ts ++
                 filter (fun todo => negb (completed todo)) ts) ts).
  { induction ts as [|t ts IH]; [constructor|].
    cbn [filter]. destruct (completed t); cbn [negb app].
    - constructor; exact IH.
    - apply Permutation_sym, Permutation_cons_app, Permutation_sym, IH. }
  repeat split.
  - rewrite <- (Permutation_length P), length_app; reflexivity.
  - exact P.
  - intros t Hin. rewrite !filter_In.
    destruct (completed t); simpl; [left | right]; tauto.
  - intros t H1 H2. apply filter_In in H1 as [_ H1], H2 as [_ H2].
    rewrite H1 in H2; discriminate H2.
Qed.

Lemma completed_count_other (i : jsstring) (ts : list Todo) :
  ~ In i (map id ts) ->
  filter (fun todo => completed todo) (map (flip i) ts)
  = filter (fun todo => completed todo) ts.
Proof. intros H; rewrite (flip_other_ids _ _ H); reflexivity. Qed.

Lemma toggle_completed_balance (ts : list Todo) (t : Todo) :
  NoDup (map id ts) -> In t ts ->
  (List.length (filter (fun todo => completed todo) (map (flip (id t)) ts))
   + (if completed t then 1 else 0)
   = List.length (filter (fun todo => completed todo) ts)
     + (if completed t then 0 else 1))%nat.
Proof.
  induction ts as [|u ts IH]; intros Hnd Hin; [destruct Hin|].
  cbn [map] in *. apply NoDup_cons_iff in Hnd as [Hu Hts].
  destruct Hin as [E|Hin].
  - subst u. unfold flip at 1. rewrite streq_refl. cbn [filter completed].
    rewrite (completed_count_other _ _ Hu).
    destruct (completed t); cbn [negb List.length]; lia.
  - assert (Hne : streq (id u) (id t) = false).
    { apply streq_false_iff. intros E. apply Hu. rewrite E.
      apply in_map, Hin. }
    unfold flip at 1. rewrite Hne. cbn [filter].
    specialize (IH Hts Hin).
    destruct (completed u); cbn [List.length]; lia.
Qed.

(** X7. With distinct ids, toggling an active record moves exactly
    that record to the completed ones: the completed count goes up by
    one; toggling a completed record takes it down by one. *)
Theorem toggleTodo_moves_one_record :
  forall (now : Z) (s : TodosState) (t : Todo),
    NoDup (ids s) -> In t (todos s) ->
    let s' := todosReducer now s (toggleTodo (id t)) in
    (completed t = false ->
       selectCompletedTodosCount s' = S (selectCompletedTodosCount s)) /\
    (completed t = true ->
       S (selectCompletedTodosCount s') = selectCompletedTodosCount s) /\
    selectTodosCount s' = selectTodosCount s.
Proof.
  intros now s t Hnd Hin s'.
  unfold selectCompletedTodosCount, selectCompletedTodos, selectTodosCount,
    selectAllTodos, s'.
  rewrite toggle_todos.
  pose proof (toggle_completed_balance (todos s) t Hnd Hin) as H.
  split; [|split]; [| |apply length_map].
  - intros Hc; rewrite Hc in H; lia.
  - intros Hc; rewrite Hc in H; lia.
Qed.

Lemma toggleTodo_moves_one_record_witness :
  selectCompletedTodosCount
    (todosReducer 0
       {| todos := TodosService.mockTodos; loading := false; error := None |}
       (toggleTodo (str "2"))) = 2%nat.
Proof.
  pose proof (toggleTodo_moves_one_record 0
                {| todos := TodosService.mockTodos; loading := false;
                   error := None |}
                (mkTodo (str "2") (str "Learn NgRx") false)) as H.
  destruct H as [H _].
  - repeat constructor; vm_compute; intuition discriminate.
  - right; left; reflexivity.
  - exact (H eq_refl).
Defined.

End ReducerMore.

(* ================================================================== *)
(** ** More on the effects, the component and the service *)
(* ================================================================== *)

Module EffectsMore.
Import JS JSFacts TodoStore StoreFacts.

Lemma laneOf_load (req : nat) (e : Effects) :
  loadTodos_fx e = Some req -> laneOf req e = Some LoadLane.
Proof.
  intros H. unfold laneOf.
  rewrite (proj2 (holds_true_iff req (loadTodos_fx e)) H); reflexivity.
Qed.

Lemma load_kept_by_other_dispatches (req : nat) (es : list Event)
  (sys : System) :
  Forall (fun ev => leavesLoadAlone ev = true) es ->
  loadTodos_fx (effects sys) = Some req ->
  loadTodos_fx (effects (run es sys)) = Some req.
Proof.
  intros Hes; revert sys.
  induction Hes as [|ev es Hev _ IH]; intros sys H; [exact H|].
  simpl. apply IH.
  destruct ev as [now a | now q r]; [|discriminate Hev].
  simpl in *. destruct a; simpl in *; try assumption; discriminate Hev.
Qed.

(** X8. A load in flight outlives the dispatch of any number of
    [addTodo], [toggleTodo] and [deleteTodo] actions: the load lane is
    still subscribed to its call, and when the call settles the store
    takes the result, the emitted todos on success, the message as
    [error] on failure, with [loading] back to false and the load lane
    free again. *)
Theorem load_outlives_other_dispatches :
  forall (sys : System) (now now' : Z) (es : list Event),
    Forall (fun ev => leavesLoadAlone ev = true) es ->
    let req := issued (effects sys) in
    let sys' := run es (dispatch now loadTodos sys) in
    laneOf req (effects sys') = Some LoadLane /\
    (forall ts,
        let done := settle now' req (Next ts) sys' in
        todos (state done) = ts /\ loading (state done) = false /\
        error (state done) = error (state sys') /\
        actions done = actions sys' ++ [loadTodosSuccess ts] /\
        loadTodos_fx (effects done) = None) /\
    (forall m,
        let done := settle now' req (Error m) sys' in
        todos (state done) = todos (state sys') /\
        loading (state done) = false /\
        error (state done) = Some m /\
        actions done = actions sys' ++ [loadTodosFailure m] /\
        loadTodos_fx (effects done) = None).
Proof.
  intros sys now now' es Hes req sys'.
  assert (H : loadTodos_fx (effects sys') = Some req)
    by (apply load_kept_by_other_dispatches; [exact Hes | reflexivity]).
  pose proof (laneOf_load _ _ H) as HL.
  split; [exact HL|].
  split; intros x done; unfold done, settle; rewrite HL; simpl;
    repeat split.
Qed.

Lemma load_outlives_other_dispatches_witness :
  todos (state
    (settle 3 0%nat (Next TodosService.mockTodos)
       (run [Dispatched 1 (addTodo (str "x")); Dispatched 2 (toggleTodo (str "1"))]
            (dispatch 0 loadTodos (initialSystem initialState)))))
  = TodosService.mockTodos.
Proof.
  pose proof (load_outlives_other_dispatches (initialSystem initialState) 0 3
                [Dispatched 1 (addTodo (str "x"));
                 Dispatched 2 (toggleTodo (str "1"))]) as H.
  destruct H as (_ & H & _).
  - repeat constructor.
  - exact (proj1 (H TodosService.mockTodos)).
Defined.

Lemma distinctCalls_run (evs : list Event) (sys : System) :
  wellFormed (effects sys) /\ distinctCalls (effects sys) ->
  wellFormed (effects (run evs sys)) /\ distinctCalls (effects (run evs sys)).
Proof.
  apply (invariant_run (fun e => wellFormed e /\ distinctCalls e));
    intros l e [Hw Hd]; split.
  - intros l' q. rewrite inner_switchMap, issued_switchMap.
    destruct (Lane_eqb l l'); intros Hq;
      [inversion Hq; lia | specialize (Hw l' q Hq); lia].
  - intros l1 l2 q. rewrite !inner_switchMap.
    destruct (Lane_eqb l l1) eqn:E1, (Lane_eqb l l2) eqn:E2; intros H1 H2.
    + destruct l, l1, l2; try discriminate; reflexivity.
    + inversion H1; subst q. apply Hw in H2; lia.
    + inversion H2; subst q. apply Hw in H1; lia.
    + exact (Hd _ _ _ H1 H2).
  - intros l' q. rewrite inner_setInner, issued_setInner.
    destruct (Lane_eqb l l'); [discriminate | apply Hw].
  - intros l1 l2 q. rewrite !inner_setInner.
    destruct (Lane_eqb l l1), (Lane_eqb l l2); try discriminate.
    apply Hd.
Qed.

Lemma Lane_eqb_true (a b : Lane) : Lane_eqb a b = true -> a = b.
Proof. destruct a, b; try discriminate; reflexivity. Qed.

Lemma settle_releases (now : Z) (req : nat) (r : Settlement) (sys : System) :
  wellFormed (effects sys) -> distinctCalls (effects sys) ->
  forall l, inner l (effects (settle now req r sys)) <> Some req
            \/ laneOf req (effects sys) = None.
Proof.
  intros Hw Hd l.
  destruct (laneOf req (effects sys)) as [l0|] eqn:E; [left | right; auto].
  pose proof (laneOf_Some _ _ _ E) as H0.
  pose proof (Hw _ _ H0) as Hlt.
  unfold settle; rewrite E. unfold dispatch; simpl.
  assert (Hfree : inner l (setInner l0 None (effects sys)) <> Some req).
  { rewrite inner_setInner. destruct (Lane_eqb l0 l) eqn:El; [discriminate|].
    intros H. pose proof (Hd _ _ _ H0 H) as Heq. subst l.
    destruct l0; discriminate El. }
  destruct (ofType (followUp l0 r)) as [l'|]; [|exact Hfree].
  rewrite inner_switchMap, issued_setInner.
  destruct (Lane_eqb l' l); [intros H; inversion H; lia | exact Hfree].
Qed.

(** X9. A call settles at most once. In any system reached from the
    initial one, after call [req] has settled a second settlement of
    the same call, with whatever outcome, changes nothing. *)
Theorem call_settles_once :
  forall (s0 : TodosState) (es : list Event) (now1 now2 : Z) (req : nat)
         (r1 r2 : Settlement),
    let sys := run es (initialSystem s0) in
    settle now2 req r2 (settle now1 req r1 sys) = settle now1 req r1 sys.
Proof.
  intros s0 es now1 now2 req r1 r2 sys.
  destruct (distinctCalls_run es (initialSystem s0)) as [Hw Hd].
  { split; [apply wellFormed_initial|]. intros [] l' q H; discriminate H. }
  fold sys in Hw, Hd.
  destruct (laneOf req (effects sys)) as [l0|] eqn:E.
  - unfold settle at 1. rewrite laneOf_None; [reflexivity|].
    intros l. destruct (settle_releases now1 req r1 sys Hw Hd l) as [H|H];
      [exact H | congruence].
  - assert (E1 : settle now1 req r1 sys = sys)
      by (unfold settle; rewrite E; reflexivity).
    rewrite E1. unfold settle; rewrite E; reflexivity.
Qed.

Lemma laneOf_switchMap (l : Lane) (e : Effects) :
  wellFormed e -> laneOf (issued e) (switchMap l e) = Some l.
Proof.
  intros Hw.
  assert (H : forall l', holds (issued e) (inner l' e) = false).
  { intros l'. destruct (inner l' e) as [q|] eqn:E; [|reflexivity].
    simpl. apply Nat.eqb_neq. specialize (Hw l' q E). lia. }
  pose proof (H LoadLane) as H1. pose proof (H AddLane) as H2.
  pose proof (H ToggleLane) as H3. pose proof (H DeleteLane) as H4.
  simpl in H1, H2, H3, H4.
  unfold laneOf; destruct l; simpl;
    rewrite ?H1, ?H2, ?H3, ?H4, ?Nat.eqb_refl; reflexivity.
Qed.

(** X10. Adding, toggling and deleting resynchronise by reloading.
    When the call issued for such an action settles with a value, the
    effect dispatches [loadTodos]: [loading] becomes true, [error] is
    cleared, and the load lane subscribes to a new call, dropping the
    load it may have had in flight. When the call fails, the effect
    dispatches [loadTodosFailure]: [error] is the message, [loading] is
    false, and the load lane is left as it was. *)
Theorem mutation_settles_into_reload :
  forall (sys : System) (now now' : Z) (a : Action) (l : Lane),
    wellFormed (effects sys) ->
    ofType a = Some l -> l <> LoadLane ->
    let req := issued (effects sys) in
    let sys' := dispatch now a sys in
    (forall v,
        let done := settle now' req (Next v) sys' in
        actions done = actions sys ++ [a; loadTodos] /\
        loading (state done) = true /\ error (state done) = None /\
        todos (state done) = todos (state sys') /\
        loadTodos_fx (effects done) = Some (S req) /\
        inner l (effects done) = None) /\
    (forall m,
        let done := settle now' req (Error m) sys' in
        actions done = actions sys ++ [a; loadTodosFailure m] /\
        loading (state done) = false /\ error (state done) = Some m /\
        todos (state done) = todos (state sys') /\
        loadTodos_fx (effects done) = loadTodos_fx (effects sys) /\
        inner l (effects done) = None).
Proof.
  intros sys now now' a l Hw Ha Hl req sys'.
  assert (HL : laneOf req (effects sys') = Some l).
  { unfold sys', dispatch; simpl. rewrite Ha.
    apply laneOf_switchMap, Hw. }
  split; intros x done; unfold done, settle; rewrite HL;
    unfold sys', dispatch; simpl; rewrite Ha, <- app_assoc; simpl.
  - destruct l; try congruence; simpl; repeat split.
  - destruct l; try congruence; simpl; repeat split.
Qed.

Lemma mutation_settles_into_reload_witness :
  loading (state
    (settle 2 1%nat (Next [])
       (dispatch 1 (toggleTodo (str "1"))
          (dispatch 0 loadTodos (initialSystem initialState))))) = true /\
  loadTodos_fx (effects
    (settle 2 1%nat (Next [])
       (dispatch 1 (toggleTodo (str "1"))
          (dispatch 0 loadTodos (initialSystem initialState))))) = Some 2%nat.
Proof.
  pose proof (mutation_settles_into_reload
                (dispatch 0 loadTodos (initialSystem initialState))
                1 2 (toggleTodo (str "1")) ToggleLane) as H.
  destruct H as [H _].
  - intros [] q Hq; simpl in Hq; try discriminate Hq.
    inversion Hq; simpl; lia.
  - reflexivity.
  - discriminate.
  - destruct (H []) as (_ & H1 & _ & _ & H2 & _). split; assumption.
Defined.

(** *** The component *)

Lemma trimStart_head (s t : jsstring) (c : code_unit) :
  trimStart s = c :: t -> isWhiteSpace c = false.
Proof.
  induction s as [|d s IH]; simpl; [discriminate|].
  destruct (isWhiteSpace d) eqn:Hd; [exact IH|].
  intros H; inversion H; subst; exact Hd.
Qed.

Lemma trimStart_snoc (s : jsstring) (c : code_unit) :
  isWhiteSpace c = false -> trimStart (s ++ [c]) = trimStart s ++ [c].
Proof.
  intros Hc; induction s as [|d s IH]; simpl.
  - rewrite Hc; reflexivity.
  - destruct (isWhiteSpace d); [exact IH | reflexivity].
Qed.

(** A title with a visible character trims to a string that begins and
    ends with a visible character. *)
Lemma trim_visible (s : jsstring) :
  Exists (fun ch => isWhiteSpace ch = false) s ->
  exists c u, trim s = c :: rev u /\ isWhiteSpace c = false /\
              (forall d, hd_error (u ++ [c]) = Some d ->
                         isWhiteSpace d = false).
Proof.
  intros Hs.
  destruct (trimStart s) as [|c t] eqn:E.
  - exfalso. apply trimStart_nil_blank in E.
    rewrite Exists_exists in Hs. destruct Hs as (ch & Hin & Hch).
    rewrite Forall_forall in E. rewrite (E ch Hin) in Hch. discriminate Hch.
  - pose proof (trimStart_head _ _ _ E) as Hc.
    exists c, (trimStart (rev t)). repeat split.
    + unfold trim, trimEnd. rewrite E. simpl.
      rewrite (trimStart_snoc _ _ Hc), rev_app_distr. reflexivity.
    + exact Hc.
    + destruct (trimStart (rev t)) as [|d u] eqn:Eu; simpl;
        intros d' Hd'; inversion Hd'; subst; [exact Hc|].
      exact (trimStart_head _ _ _ Eu).
Qed.

(** X11. [add()] with a title that has a visible character dispatches
    exactly one [addTodo], carrying the trimmed title, and empties the
    input. The title sent is not empty and neither starts nor ends
    with white space. *)
Theorem add_submits_trimmed_title :
  forall (now : Z) (c : Todos),
    Exists (fun ch => isWhiteSpace ch = false) (newTitle c) ->
    let sent := trim (newTitle c) in
    newTitle (add now c) = [] /\
    actions (facade (add now c)) = actions (facade c) ++ [addTodo sent] /\
    todos (state (facade (add now c)))
      = todos (state (facade c)) ++ [mkTodo (number_toString now) sent false] /\
    (exists first, hd_error sent = Some first /\ isWhiteSpace first = false) /\
    (exists last, hd_error (rev sent) = Some last /\ isWhiteSpace last = false).
Proof.
  intros now c Hs sent.
  destruct (trim_visible _ Hs) as (ch & u & E & Hch & Hu).
  unfold add. fold sent. unfold sent in *. rewrite E. simpl.
  repeat split.
  - exists ch; split; [reflexivity | exact Hch].
  - rewrite rev_involutive.
    destruct (u ++ [ch]) as [|d w] eqn:Ew; [destruct u; discriminate Ew|].
    exists d; split; [reflexivity | apply Hu; reflexivity].
Qed.

Lemma add_submits_trimmed_title_witness :
  actions (facade (add 7 {| newTitle := str "  Learn X ";
                            facade := initialSystem initialState |}))
  = [addTodo (str "Learn X")].
Proof.
  apply (add_submits_trimmed_title 7
           {| newTitle := str "  Learn X ";
              facade := initialSystem initialState |}).
  simpl. do 2 apply Exists_cons_tl. apply Exists_cons_hd. reflexivity.
Defined.

(** *** The data source *)

Lemma findIndex_spec {A} (p : A -> bool) (l : list A) :
  (TodosService.findIndex p l = -1 /\ forallb (fun x => negb (p x)) l = true) \/
  (exists l1 x l2,
      l = l1 ++ x :: l2 /\ p x = true /\
      forallb (fun y => negb (p y)) l1 = true /\
      TodosService.findIndex p l = Z.of_nat (List.length l1)).
Proof.
  induction l as [|x l IH]; [left; split; reflexivity|].
  cbn [TodosService.findIndex forallb].
  destruct (p x) eqn:Hx.
  - right. exists [], x, l. repeat split; assumption.
  - destruct IH as [[E F]|(l1 & y & l2 & E & Hy & F & K)].
    + left. rewrite E, F. split; reflexivity.
    + right. exists (x :: l1), y, l2. subst l. cbn [forallb List.length].
      rewrite Hx, F, K. repeat split; try assumption.
      destruct (Z.ltb_spec (Z.of_nat (List.length l1)) 0); lia.
Qed.

Lemma splice1_middle {A} (l1 l2 : list A) (x : A) :
  TodosService.splice1 (Z.of_nat (List.length l1)) (l1 ++ x :: l2)
  = l1 ++ l2.
Proof.
  unfold TodosService.splice1. rewrite Nat2Z.id.
  induction l1 as [|y l1 IH]; [reflexivity|].
  simpl in *. f_equal. exact IH.
Qed.

Lemma no_match_ids (i : jsstring) (l : list Todo) :
  forallb (fun t => negb (streq (id t) i)) l = true <-> ~ In i (map id l).
Proof.
  induction l as [|t l IH]; cbn [forallb map In]; [tauto|].
  rewrite andb_true_iff, IH, negb_true_iff, streq_false_iff. tauto.
Qed.

Lemma service_deleteTodo_cases :
  forall (i : jsstring) (mock : list Todo),
    let mock' := fst (TodosService.deleteTodo i mock) in
    let removed := snd (TodosService.deleteTodo i mock) in
    (removed = true <-> In i (map id mock)) /\
    (removed = false -> mock' = mock) /\
    (removed = true ->
       exists l1 t l2,
         mock = l1 ++ t :: l2 /\ id t = i /\ ~ In i (map id l1) /\
         mock' = l1 ++ l2).
Proof.
  intros i mock mock' removed. unfold mock', removed, TodosService.deleteTodo.
  destruct (findIndex_spec (fun t => streq (id t) i) mock)
    as [[E F]|(l1 & t & l2 & E & Ht & F & K)].
  - rewrite E. simpl. apply no_match_ids in F.
    repeat split; try tauto; discriminate.
  - rewrite K.
    assert (Hlt : (-1 <? Z.of_nat (List.length l1)) = true)
      by (apply Z.ltb_lt; lia).
    rewrite Hlt. simpl. apply streq_true_iff in Ht. apply no_match_ids in F.
    split; [|split].
    + split; [intros _ | reflexivity].
      subst mock. rewrite map_app. apply in_or_app. right. left. exact Ht.
    + discriminate.
    + intros _. exists l1, t, l2. repeat split; try assumption.
      subst mock. apply splice1_middle.
Qed.

(** X12. The service's [deleteTodo(id)] emits [true] exactly when a
    record with that id exists. It then removes the first such record
    and nothing else; otherwise the array is untouched. *)
Theorem service_deleteTodo_first_match :
  forall (i : jsstring) (mock : list Todo),
    let mock' := fst (TodosService.deleteTodo i mock) in
    let removed := snd (TodosService.deleteTodo i mock) in
    (removed = true <-> In i (map id mock)) /\
    (removed = false -> mock' = mock) /\
    (removed = true ->
       exists l1 t l2,
         mock = l1 ++ t :: l2 /\ id t = i /\ ~ In i (map id l1) /\
         mock' = l1 ++ l2).
Proof. exact service_deleteTodo_cases. Qed.

(** X13. The service's [toggleTodo(id)] emits the first record with
    that id, flipped, and changes that record only; without a match it
    emits [undefined] and leaves the array untouched. *)
Theorem service_toggleTodo_first_match :
  forall (i : jsstring) (mock : list Todo),
    let mock' := fst (TodosService.toggleTodo i mock) in
    let found := snd (TodosService.toggleTodo i mock) in
    (found = None <-> ~ In i (map id mock)) /\
    (found = None -> mock' = mock) /\
    (forall t', found = Some t' ->
       exists l1 t l2,
         mock = l1 ++ t :: l2 /\ id t = i /\ ~ In i (map id l1) /\
         t' = mkTodo (id t) (title t) (negb (completed t)) /\
         mock' = l1 ++ t' :: l2).
Proof.
  intros i mock. cbv zeta.
  induction mock as [|t mock IH]; cbn [TodosService.toggleTodo map In].
  - simpl; repeat split; try tauto; discriminate.
  - destruct (streq (id t) i) eqn:Ht.
    + apply streq_true_iff in Ht. simpl. split; [|split].
      * split; [discriminate | intros H; exfalso; apply H; left; exact Ht].
      * discriminate.
      * intros t' E; inversion E; subst t'.
        exists [], t, mock. simpl; repeat split; auto.
    + apply streq_false_iff in Ht.
      destruct (TodosService.toggleTodo i mock) as [rest' found] eqn:E.
      simpl in *. destruct IH as (I1 & I2 & I3). split; [|split].
      * rewrite I1. tauto.
      * intros H. rewrite (I2 H). reflexivity.
      * intros t' H. destruct (I3 t' H) as (l1 & u & l2 & E1 & E2 & E3 & E4 & E5).
        exists (t :: l1), u, l2. subst mock rest'. simpl.
        repeat split; try assumption. tauto.
Qed.

(** X14. When the ids are distinct the reducer's optimistic update and
    the service agree: toggling or deleting an id in the store's list
    gives the list the service holds after the same call. *)
Theorem optimistic_update_matches_service :
  forall (now : Z) (s : TodosState) (i : jsstring),
    NoDup (ids s) ->
    todos (todosReducer now s (toggleTodo i))
      = fst (TodosService.toggleTodo i (todos s)) /\
    todos (todosReducer now s (deleteTodo i))
      = fst (TodosService.deleteTodo i (todos s)).
Proof.
  intros now s i Hnd. unfold ids in Hnd. split.
  - rewrite ReducerFacts.toggle_todos.
    induction (todos s) as [|t ts IH]; [reflexivity|].
    cbn [map TodosService.toggleTodo] in *.
    apply NoDup_cons_iff in Hnd as [Ht Hts].
    unfold flip at 1. destruct (streq (id t) i) eqn:E.
    + simpl. f_equal. apply ReducerMore.flip_other_ids.
      apply streq_true_iff in E. rewrite <- E. exact Ht.
    + rewrite (IH Hts).
      destruct (TodosService.toggleTodo i ts); reflexivity.
  - simpl.
    destruct (service_deleteTodo_cases i (todos s)) as (D1 & D2 & D3).
    destruct (snd (TodosService.deleteTodo i (todos s))) eqn:R.
    + destruct (D3 eq_refl) as (l1 & t & l2 & E & Ht & Hl1 & E').
      rewrite E', E in *. rewrite map_app in Hnd. cbn [map] in Hnd.
      apply NoDup_remove_2 in Hnd.
      rewrite filter_app. cbn [filter].
      rewrite (proj2 (streq_true_iff _ _) Ht). cbn [negb].
      rewrite (ReducerMore.filter_other_ids _ _ Hl1).
      rewrite ReducerMore.filter_other_ids; [reflexivity|].
      rewrite <- Ht. intros H; apply Hnd, in_or_app; right; exact H.
    + rewrite (D2 eq_refl). apply ReducerMore.filter_other_ids.
      intros H. apply D1 in H. discriminate H.
Qed.

Lemma optimistic_update_matches_service_witness :
  todos (todosReducer 0
           {| todos := TodosService.mockTodos; loading := false;
              error := None |} (deleteTodo (str "2")))
  = fst (TodosService.deleteTodo (str "2") TodosService.mockTodos).
Proof.
  apply (optimistic_update_matches_service 0
           {| todos := TodosService.mockTodos; loading := false;
              error := None |} (str "2")).
  repeat constructor; vm_compute; intuition discriminate.
Defined.

(** With a repeated id the two part ways: the reducer flips every
    record with the id, the service the first one only. *)
Example duplicate_ids_diverge :
  let twice := [mkTodo (str "1") (str "a") false;
                mkTodo (str "1") (str "b") false] in
  map completed
    (todos (todosReducer 0 (mkState twice false None) (toggleTodo (str "1"))))
    = [true; true] /\
  map completed (fst (TodosService.toggleTodo (str "1") twice))
    = [true; false].
Proof. split; reflexivity. Qed.

End EffectsMore.

(* ================================================================== *)
(** ** More on the user table *)
(* ================================================================== *)

Module TableMore.
Import JS JSFacts UserTable SortFacts UserTableFacts.

Lemma sorted_weaken {A} (R S : A -> A -> Prop) (l : list A) :
  (forall a b, R a b -> S a b) -> StronglySorted R l -> StronglySorted S l.
Proof.
  intros H; induction 1 as [|a l Hl IH Ha]; constructor; [exact IH|].
  eapply Forall_impl; [|exact Ha]. exact (H a).
Qed.

Lemma slice_incl {A} (l : list A) (start stop : Z) : incl (slice l start stop) l.
Proof.
  unfold slice. intros x Hx.
  set (k := Z.to_nat (relativeIndex (Z.of_nat (List.length l)) start)) in *.
  rewrite <- (firstn_skipn k l). apply in_or_app; right.
  set (m := Z.to_nat _) in Hx.
  rewrite <- (firstn_skipn m (skipn k l)). apply in_or_app; left. exact Hx.
Qed.

(** A window that starts inside or past the array. *)
Lemma slice_window {A} (l : list A) (start size : Z) :
  0 <= start -> 0 <= size ->
  slice l start (start + size)
  = firstn (Z.to_nat size) (skipn (Z.to_nat start) l).
Proof.
  intros Hs Hz. unfold slice, relativeIndex.
  set (len := Z.of_nat (List.length l)).
  destruct (Z.ltb_spec start 0); [lia|].
  destruct (Z.ltb_spec (start + size) 0); [lia|].
  destruct (Z.le_gt_cases len start) as [Hge|Hlt].
  - rewrite (skipn_all2 (n := Z.to_nat start)) by (unfold len in Hge; lia).
    rewrite firstn_nil.
    replace (Z.min (start + size) len - Z.min start len) with 0 by lia.
    reflexivity.
  - replace (Z.min start len) with start by lia.
    destruct (Z.le_gt_cases (start + size) len) as [Hin|Hout].
    + replace (Z.min (start + size) len - start) with size by lia.
      reflexivity.
    + replace (Z.min (start + size) len - start) with (len - start) by lia.
      assert (E : List.length (skipn (Z.to_nat start) l)
                  = Z.to_nat (len - start))
        by (rewrite length_skipn; unfold len; lia).
      rewrite <- E, firstn_all. symmetry. apply firstn_all2. lia.
Qed.

Section View.
Variable toLowerCase : jsstring -> jsstring.
Variable localeCompare : jsstring -> jsstring -> Z.

Local Abbreviation filtered := (filteredUsers toLowerCase).
Local Abbreviation sorted := (sortedUsers toLowerCase localeCompare).
Local Abbreviation pages := (totalPages toLowerCase localeCompare).
Local Abbreviation page := (pageAt toLowerCase localeCompare).

(** X15. Sorting and paging never invent or lose a record: for every
    query, sort setting and page, the sorted view is a rearrangement
    of the filtered one (the same list when no sort column is set),
    the filtered view keeps only records of the source collection, and
    so does the page shown. *)
Theorem view_shows_source_records :
  forall c : UserTableComponent,
    Permutation (sorted c) (filtered c) /\
    (sortColumn c = None -> sorted c = filtered c) /\
    incl (filtered c) (users c) /\
    incl (paginatedUsers toLowerCase localeCompare c) (users c).
Proof.
  intros c.
  assert (P : Permutation (sorted c) (filtered c)).
  { unfold sortedUsers. destruct (sortColumn c); [|reflexivity].
    apply sort_perm. }
  assert (I : incl (filtered c) (users c)).
  { unfold filteredUsers.
    destruct (falsy (trim (toLowerCase (searchTerm c))));
      [apply incl_refl | apply incl_filter]. }
  repeat split; try assumption.
  - intros H. unfold sortedUsers. rewrite H. reflexivity.
  - intros u Hu. apply I, (Permutation_in _ P).
    eapply slice_incl. exact Hu.
Qed.

Lemma number_compare_asc (column : UserKey) (a b : User) :
  isTextKey column = false ->
  compareUsers localeCompare column asc a b
  = number column a - number column b.
Proof. destruct column; try discriminate; reflexivity. Qed.

Lemma number_compare_desc (column : UserKey) (a b : User) :
  isTextKey column = false ->
  compareUsers localeCompare column desc a b
  = number column b - number column a.
Proof. destruct column; try discriminate; reflexivity. Qed.

(** X16. Sorting by a numeric key ([id] or [age]) orders the filtered
    users by that number, non-decreasing when ascending and
    non-increasing when descending, and users with the same number
    keep the order they had. *)
Theorem numeric_sort_is_ordered_and_stable :
  forall (c : UserTableComponent) (column : UserKey),
    isTextKey column = false ->
    let ascending := sorted (setSort (Some column) asc c) in
    let descending := sorted (setSort (Some column) desc c) in
    StronglySorted (fun a b => number column a <= number column b)
                   ascending /\
    StronglySorted (fun a b => number column b <= number column a)
                   descending /\
    (forall n,
        filter (fun u => number column u =? n) ascending
          = filter (fun u => number column u =? n) (filtered c) /\
        filter (fun u => number column u =? n) descending
          = filter (fun u => number column u =? n) (filtered c)).
Proof.
  intros c column Hcol ascending descending.
  set (up := fun a b : User => number column a - number column b).
  set (down := fun a b : User => number column b - number column a).
  assert (Ea : ascending = sort up (filtered c))
    by (apply sort_ext; intros a b; apply number_compare_asc, Hcol).
  assert (Ed : descending = sort down (filtered c))
    by (apply sort_ext; intros a b; apply number_compare_desc, Hcol).
  assert (Ua : forall a b, Z.sgn (up a b) = - Z.sgn (up b a))
    by (intros a b; unfold up; lia).
  assert (Ut : forall a b d, up a b <= 0 -> up b d <= 0 -> up a d <= 0)
    by (intros a b d; unfold up; lia).
  assert (Da : forall a b, Z.sgn (down a b) = - Z.sgn (down b a))
    by (intros a b; unfold down; lia).
  assert (Dt : forall a b d, down a b <= 0 -> down b d <= 0 -> down a d <= 0)
    by (intros a b d; unfold down; lia).
  rewrite Ea, Ed. split; [|split].
  - apply (sorted_weaken (notAbove up)); [|apply (sort_sorted up Ua Ut)].
    intros a b; unfold notAbove, up; lia.
  - apply (sorted_weaken (notAbove down)); [|apply (sort_sorted down Da Dt)].
    intros a b; unfold notAbove, down; lia.
  - intros n.
    assert (K : forall l, In n (map (number column) l) \/
                          filter (fun u => number column u =? n) l = []).
    { induction l as [|u l IH]; [right; reflexivity|].
      destruct IH as [IH|IH]; [left; right; exact IH|].
      cbn [filter map In]. destruct (Z.eqb_spec (number column u) n);
        [left; left; assumption | right; exact IH]. }
    assert (T : forall (cmp : User -> User -> Z) l,
               (forall a b, cmp a b = 0 <-> number column a = number column b) ->
               (forall z, filter (tied cmp z) (sort cmp l)
                          = filter (tied cmp z) l) ->
               filter (fun u => number column u =? n) (sort cmp l)
               = filter (fun u => number column u =? n) l).
    { intros cmp l Hc Hs.
      assert (Hin : forall l', Permutation l' l ->
                (forall z, filter (tied cmp z) l' = filter (tied cmp z) l) ->
                filter (fun u => number column u =? n) l'
                = filter (fun u => number column u =? n) l).
      { intros l' Hp Hf.
        destruct (K l) as [Hn|Hn].
        - apply in_map_iff in Hn as (z & Hz & _).
          assert (Hext : forall u,
                     (number column u =? n) = tied cmp z u).
          { intros u; unfold tied. destruct (Hc z u) as [H1 H2].
            destruct (Z.eqb_spec (number column u) n),
                     (Z.eqb_spec (cmp z u) 0); try reflexivity;
              exfalso; lia. }
          rewrite !(filter_ext _ _ Hext). apply Hf.
        - rewrite Hn.
          destruct (filter (fun u => number column u =? n) l') as [|u w] eqn:E;
            [reflexivity|].
          assert (Hu : In u (filter (fun u => number column u =? n) l'))
            by (rewrite E; left; reflexivity).
          apply filter_In in Hu as [Hu1 Hu2].
          apply (Permutation_in _ Hp) in Hu1.
          assert (Hu : In u (filter (fun u => number column u =? n) l))
            by (apply filter_In; split; assumption).
          rewrite Hn in Hu. destruct Hu. }
      apply Hin; [apply sort_perm | exact Hs]. }
    split; apply T.
    + intros a b; unfold up; lia.
    + intros z. apply (sort_stable up Ua Ut).
    + intros a b; unfold down; lia.
    + intros z. apply (sort_stable down Da Dt).
Qed.

Lemma pages_same_view (c c' : UserTableComponent) :
  users c' = users c -> searchTerm c' = searchTerm c ->
  pageSize c' = pageSize c ->
  pages c' = pages c.
Proof.
  intros Hu Hs Hp. unfold totalPages.
  rewrite !sortedUsers_length. unfold filteredUsers.
  rewrite Hu, Hs, Hp. reflexivity.
Qed.

Lemma pages_bounds (c : UserTableComponent) :
  0 < pageSize c ->
  (pages c - 1) * pageSize c
    < Z.of_nat (List.length (sorted c)) <= pages c * pageSize c.
Proof.
  intros Hp. unfold totalPages. rewrite ceiling_quotient.
  set (n := Z.of_nat (List.length (sorted c))).
  pose proof (Z.div_mod (- n) (pageSize c) ltac:(lia)).
  pose proof (Z.mod_pos_bound (- n) (pageSize c) Hp).
  nia.
Qed.

Lemma page_window (p : Z) (c : UserTableComponent) :
  1 <= p -> 0 < pageSize c ->
  page p c = firstn (Z.to_nat (pageSize c))
               (skipn (Z.to_nat ((p - 1) * pageSize c)) (sorted c)).
Proof.
  intros Hp Hs. unfold pageAt, paginatedUsers.
  change (sortedUsers toLowerCase localeCompare (setCurrentPage p c))
    with (sorted c).
  cbn [currentPage pageSize setCurrentPage].
  apply slice_window; nia.
Qed.

Lemma firstn_plus {A} (a b : nat) (l : list A) :
  firstn (a + b) l = firstn a l ++ firstn b (skipn a l).
Proof.
  revert l; induction a as [|a IH]; intros l; [reflexivity|].
  destruct l as [|x l]; simpl.
  - rewrite firstn_nil; reflexivity.
  - rewrite IH; reflexivity.
Qed.

Lemma chunks_prefix {A} (l : list A) (size k : nat) :
  List.concat (map (fun j => firstn size (skipn (j * size) l)) (seq 0 k))
  = firstn (k * size) l.
Proof.
  induction k as [|k IH]; [reflexivity|].
  rewrite seq_S, map_app, concat_app, IH. cbn [map List.concat Nat.add].
  rewrite app_nil_r.
  replace (S k * size)%nat with (k * size + size)%nat by (simpl; lia).
  symmetry; apply firstn_plus.
Qed.

Lemma page_length (c : UserTableComponent) (p : Z) :
  1 <= p -> 0 < pageSize c ->
  Z.of_nat (List.length (page p c))
  = Z.min (pageSize c)
      (Z.max 0 (Z.of_nat (List.length (sorted c)) - (p - 1) * pageSize c)).
Proof.
  intros Hp Hs. rewrite (page_window p c Hp Hs).
  rewrite length_firstn, length_skipn. nia.
Qed.

Lemma page_in_range_not_empty (c : UserTableComponent) (p : Z) :
  0 < pageSize c -> 1 <= p <= pages c -> page p c <> [].
Proof.
  intros Hs Hp E. pose proof (pages_bounds c Hs) as Hb.
  pose proof (page_length c p (proj1 Hp) Hs) as H.
  rewrite E in H. simpl in H. nia.
Qed.

(** X17. The pages tile the sorted view. With [pageSize > 0], pages
    1 to [totalPages] put end to end are the sorted users, each page
    holds at most [pageSize] of them, every page in that range holds
    at least one, and every page past the last is empty. *)
Theorem pages_tile_sorted_view :
  forall c : UserTableComponent,
    0 < pageSize c ->
    List.concat (map (fun k => page (Z.of_nat k) c)
                (seq 1 (Z.to_nat (pages c)))) = sorted c /\
    (forall p, 1 <= p ->
               Z.of_nat (List.length (page p c)) <= pageSize c) /\
    (forall p, 1 <= p <= pages c -> page p c <> []) /\
    (forall p, 1 <= p -> pages c < p -> page p c = []).
Proof.
  intros c Hs. pose proof (pages_bounds c Hs) as Hb.
  set (n := Z.of_nat (List.length (sorted c))) in *.
  assert (Hlen : forall p, 1 <= p ->
            Z.of_nat (List.length (page p c))
            = Z.min (pageSize c) (Z.max 0 (n - (p - 1) * pageSize c)))
    by (intros p Hp; apply page_length; assumption).
  split; [|split; [|split]].
  - rewrite <- seq_shift, map_map.
    rewrite (map_ext _ (fun j => firstn (Z.to_nat (pageSize c))
                                   (skipn (j * Z.to_nat (pageSize c))
                                          (sorted c)))).
    + rewrite chunks_prefix. apply firstn_all2. unfold n in Hb. nia.
    + intros j. rewrite page_window by lia. do 2 f_equal. nia.
  - intros p Hp. rewrite (Hlen p Hp). lia.
  - intros p Hp E. pose proof (Hlen p (proj1 Hp)) as H.
    rewrite E in H. simpl in H. nia.
  - intros p Hp Hpast. pose proof (Hlen p Hp) as H.
    destruct (page p c); [reflexivity|]. simpl in H. nia.
Qed.

Lemma perform_same_view (op : Operation) (c : UserTableComponent) :
  isNavigation op = true \/ (exists column, op = ToggleSort column) ->
  pages (perform toLowerCase localeCompare op c) = pages c.
Proof.
  intros H. apply pages_same_view;
    destruct H as [H|[column ->]];
    try (destruct op; try discriminate H; simpl;
         unfold goToPage, nextPage, previousPage;
         repeat match goal with
                | |- context [if ?b then _ else _] => destruct b
                end; reflexivity);
    simpl; unfold toggleSort;
    repeat match goal with
           | |- context [match ?x with _ => _ end] => destruct x
           end; reflexivity.
Qed.

Lemma page_range_kept :
  forall (ops : list Operation) (c : UserTableComponent),
    pageInRange toLowerCase localeCompare c ->
    pageInRange toLowerCase localeCompare
      (performAll toLowerCase localeCompare ops c).
Proof.
  unfold performAll.
  induction ops as [|op ops IH]; intros c H; [exact H|].
  simpl. apply IH. unfold pageInRange in *.
  destruct op as [p| | |column|term].
  - rewrite perform_same_view by (left; reflexivity).
    simpl. unfold goToPage.
    destruct (Z.leb_spec 1 p), (Z.leb_spec p (pages c)); simpl; lia.
  - rewrite perform_same_view by (left; reflexivity).
    simpl. unfold nextPage, hasNextPage.
    destruct (Z.ltb_spec (currentPage c) (pages c)); simpl; lia.
  - rewrite perform_same_view by (left; reflexivity).
    simpl. unfold previousPage, hasPreviousPage.
    destruct (Z.ltb_spec 1 (currentPage c)); simpl; lia.
  - rewrite perform_same_view by (right; eexists; reflexivity).
    assert (E : currentPage (toggleSort column c) = currentPage c).
    { unfold toggleSort.
      repeat match goal with
             | |- context [match ?x with _ => _ end] => destruct x
             end; reflexivity. }
    simpl. rewrite E. exact H.
  - simpl. unfold searchSettled.
    destruct (destroyed c); [exact H|].
    destruct (distinctUntilChanged term c); [|exact H].
    simpl. lia.
Qed.

(** X18. Whatever the user does, the page shown stays in range: with
    a non-zero [pageSize], if [1 <= currentPage <= max(1, totalPages)]
    holds, it still holds after any sequence of page changes, sort
    toggles and committed searches. *)
Theorem page_stays_in_range :
  forall (ops : list Operation) (c : UserTableComponent),
    pageSize c <> 0 ->
    pageInRange toLowerCase localeCompare c ->
    pageInRange toLowerCase localeCompare
      (performAll toLowerCase localeCompare ops c).
Proof. intros ops c _ H. apply page_range_kept, H. Qed.

(** X19. Paging never lands on an empty page. With [pageSize > 0] and
    the page in range, [goToPage], [nextPage] and [previousPage]
    either leave the component as it is or move to a page that shows
    at least one user. *)
Theorem navigation_lands_on_users :
  forall (op : Operation) (c : UserTableComponent),
    isNavigation op = true ->
    0 < pageSize c ->
    pageInRange toLowerCase localeCompare c ->
    perform toLowerCase localeCompare op c = c \/
    paginatedUsers toLowerCase localeCompare
      (perform toLowerCase localeCompare op c) <> [].
Proof.
  intros op c Hop Hs [H1 H2].
  assert (Hland : forall p, 1 <= p <= pages c ->
            paginatedUsers toLowerCase localeCompare (setCurrentPage p c)
            <> []) by (intros p Hp; apply page_in_range_not_empty; assumption).
  destruct op as [p| | |column|term]; try discriminate Hop; simpl.
  - unfold goToPage.
    destruct (Z.leb_spec 1 p), (Z.leb_spec p (pages c)); simpl;
      [right; apply Hland; lia | left; reflexivity ..].
  - unfold nextPage, hasNextPage.
    destruct (Z.ltb_spec (currentPage c) (pages c));
      [right; apply Hland; lia | left; reflexivity].
  - unfold previousPage, hasPreviousPage.
    destruct (Z.ltb_spec 1 (currentPage c));
      [right; apply Hland; lia | left; reflexivity].
Qed.

(** X20. Next and previous undo each other (for a non-zero
    [pageSize]): from a page that has a next one, [nextPage] then [previousPage] gives the component back,
    and from a page in range that has a previous one, [previousPage]
    then [nextPage] does. *)
Theorem next_previous_round_trip :
  forall c : UserTableComponent,
    pageSize c <> 0 ->
    (hasNextPage toLowerCase localeCompare c = true ->
     1 <= currentPage c ->
     previousPage (nextPage toLowerCase localeCompare c) = c) /\
    (hasPreviousPage c = true ->
     currentPage c <= pages c ->
     nextPage toLowerCase localeCompare (previousPage c) = c).
Proof.
  intros c _; split.
  - intros Hn H1. unfold nextPage. rewrite Hn.
    unfold previousPage, hasPreviousPage. simpl.
    destruct (Z.ltb_spec 1 (currentPage c + 1)); [|lia].
    destruct c; unfold setCurrentPage; simpl. f_equal. lia.
  - intros Hp H2. unfold previousPage. rewrite Hp.
    unfold hasPreviousPage in Hp. apply Z.ltb_lt in Hp.
    unfold nextPage, hasNextPage.
    rewrite (pages_same_view c (setCurrentPage (currentPage c - 1) c))
      by reflexivity.
    simpl.
    destruct (Z.ltb_spec (currentPage c - 1) (pages c)); [|lia].
    destruct c; unfold setCurrentPage; simpl. f_equal. lia.
Qed.

End View.

Lemma numeric_sort_is_ordered_and_stable_witness :
  StronglySorted (fun a b => number key_age a <= number key_age b)
    (sortedUsers asciiToLowerCase codeUnitCompare
       (setSort (Some key_age) asc initial)).
Proof.
  apply (numeric_sort_is_ordered_and_stable asciiToLowerCase codeUnitCompare
           initial key_age).
  reflexivity.
Defined.

Lemma pages_tile_sorted_view_witness :
  pageAt asciiToLowerCase codeUnitCompare 1 initial
    ++ pageAt asciiToLowerCase codeUnitCompare 2 initial
  = sortedUsers asciiToLowerCase codeUnitCompare initial.
Proof.
  pose proof (pages_tile_sorted_view asciiToLowerCase codeUnitCompare
                initial ltac:(simpl; lia)) as [H _].
  vm_compute in H. vm_compute. exact H.
Defined.

Lemma initial_in_range : pageInRange asciiToLowerCase codeUnitCompare initial.
Proof. split; vm_compute; discriminate. Qed.

Lemma page_stays_in_range_witness :
  pageInRange asciiToLowerCase codeUnitCompare
    (performAll asciiToLowerCase codeUnitCompare
       [SearchSettled (str "e"); NextPage; ToggleSort key_age;
        SearchSettled (str "bob"); GoToPage 3]
       initial).
Proof.
  apply (page_stays_in_range asciiToLowerCase codeUnitCompare
           [SearchSettled (str "e"); NextPage; ToggleSort key_age;
            SearchSettled (str "bob"); GoToPage 3] initial).
  - discriminate.
  - exact initial_in_range.
Defined.

Lemma navigation_lands_on_users_witness :
  perform asciiToLowerCase codeUnitCompare NextPage initial = initial \/
  paginatedUsers asciiToLowerCase codeUnitCompare
    (perform asciiToLowerCase codeUnitCompare NextPage initial) <> [].
Proof.
  apply (navigation_lands_on_users asciiToLowerCase codeUnitCompare
           NextPage initial).
  - reflexivity.
  - simpl; lia.
  - exact initial_in_range.
Defined.

Lemma next_previous_round_trip_witness :
  previousPage (nextPage asciiToLowerCase codeUnitCompare initial) = initial.
Proof.
  apply (proj1 (next_previous_round_trip asciiToLowerCase codeUnitCompare
                  initial ltac:(discriminate))).
  - reflexivity.
  - simpl; lia.
Defined.

(** The empty result: every page request is turned down, page 1
    included, because [totalPages] is 0. *)
Example goToPage_on_empty_result :
  let c := searchSettled (str "zzz") initial in
  goToPage asciiToLowerCase codeUnitCompare 1 c = c.
Proof. reflexivity. Qed.

Section TextOrder.
Variable toLowerCase : jsstring -> jsstring.
Variable localeCompare : jsstring -> jsstring -> Z.
Hypothesis localeCompare_antisym :
  forall a b, Z.sgn (localeCompare a b) = - Z.sgn (localeCompare b a).
Hypothesis localeCompare_trans :
  forall a b c, localeCompare a b <= 0 -> localeCompare b c <= 0 ->
                localeCompare a c <= 0.

(** X21. With a consistent collation, sorting by a text key ([name]
    or [email]) puts the filtered users in collation order: ascending,
    no user stands in front of one the collation ranks lower;
    descending, none stands in front of one it ranks higher. *)
Theorem text_sort_is_ordered :
  forall (c : UserTableComponent) (column : UserKey),
    isTextKey column = true ->
    StronglySorted (fun a b => rank localeCompare column a b <= 0)
      (sortedUsers toLowerCase localeCompare (setSort (Some column) asc c)) /\
    StronglySorted (fun a b => rank localeCompare column b a <= 0)
      (sortedUsers toLowerCase localeCompare (setSort (Some column) desc c)).
Proof.
  intros c column Hcol.
  rewrite (sortedUsers_asc toLowerCase localeCompare column Hcol),
          (sortedUsers_desc toLowerCase localeCompare column Hcol).
  split.
  - apply (sort_sorted (rank localeCompare column)).
    + intros a b; apply localeCompare_antisym.
    + intros a b d; apply localeCompare_trans.
  - apply (sort_sorted (fun a b => rank localeCompare column b a)).
    + intros a b; apply localeCompare_antisym.
    + intros a b d H1 H2; exact (localeCompare_trans _ _ _ H2 H1).
Qed.
End TextOrder.

Lemma text_sort_is_ordered_witness :
  StronglySorted (fun a b => rank codeUnitCompare key_email a b <= 0)
    (sortedUsers asciiToLowerCase codeUnitCompare
       (setSort (Some key_email) asc initial)).
Proof.
  apply (text_sort_is_ordered asciiToLowerCase codeUnitCompare
           codeUnitCompare_antisym codeUnitCompare_trans initial key_email).
  reflexivity.
Defined.

Section BlankQuery.
Variable toLowerCase : jsstring -> jsstring.
Variable localeCompare : jsstring -> jsstring -> Z.

(** Lower-casing a string of white space gives a string of white
    space. *)
Hypothesis toLowerCase_blank :
  forall s, Forall (fun ch => isWhiteSpace ch = true) s ->
            Forall (fun ch => isWhiteSpace ch = true) (toLowerCase s).

(** X22. An empty or white-space-only query filters nothing out: the
    filtered view is the whole source collection in its own order, and
    the sorted view is a rearrangement of the whole collection. *)
Theorem blank_query_shows_all :
  forall c : UserTableComponent,
    Forall (fun ch => isWhiteSpace ch = true) (searchTerm c) ->
    filteredUsers toLowerCase c = users c /\
    Permutation (sortedUsers toLowerCase localeCompare c) (users c) /\
    List.length (sortedUsers toLowerCase localeCompare c)
      = List.length (users c).
Proof.
  intros c H.
  assert (E : filteredUsers toLowerCase c = users c).
  { unfold filteredUsers.
    rewrite (proj2 (falsy_trim_iff _) (toLowerCase_blank _ H)).
    reflexivity. }
  split; [exact E|]. split.
  - rewrite <- E. unfold sortedUsers.
    destruct (sortColumn c); [apply sort_perm | reflexivity].
  - rewrite sortedUsers_length, E. reflexivity.
Qed.
End BlankQuery.

Lemma asciiToLowerCase_blank (s : jsstring) :
  Forall (fun ch => isWhiteSpace ch = true) s ->
  Forall (fun ch => isWhiteSpace ch = true) (asciiToLowerCase s).
Proof.
  induction 1 as [|ch s Hch _ IH]; [constructor|].
  simpl. constructor; [|exact IH].
  unfold asciiLower.
  destruct (N.leb_spec 65 ch), (N.leb_spec ch 90); simpl; try exact Hch.
  exfalso. unfold isWhiteSpace in Hch.
  repeat (apply orb_true_iff in Hch as [Hch|Hch]);
    try (apply N.eqb_eq in Hch; lia).
  apply andb_true_iff in Hch as [Hch _]. apply N.leb_le in Hch. lia.
Qed.

Lemma blank_query_shows_all_witness :
  filteredUsers asciiToLowerCase (searchSettled (str "  ") initial)
  = mockUsers.
Proof.
  apply (blank_query_shows_all asciiToLowerCase codeUnitCompare
           asciiToLowerCase_blank (searchSettled (str "  ") initial)).
  simpl. repeat constructor.
Defined.

(** X23. [toggleSort] touches the two sort signals only. A column
    that is not sortable ([id], [email]) is ignored. A sortable column
    ([name], [age]) becomes the sort column: ascending when it was not
    the sort column before, with the direction flipped when it was,
    so that toggling the current column twice gives the component
    back. *)
Theorem toggleSort_cycles_direction :
  forall (column : UserKey) (c : UserTableComponent),
    let c' := toggleSort column c in
    (users c' = users c /\ searchTerm c' = searchTerm c /\
     currentPage c' = currentPage c /\ pageSize c' = pageSize c /\
     lastEmitted c' = lastEmitted c /\ destroyed c' = destroyed c) /\
    (column = key_id \/ column = key_email -> c' = c) /\
    (column = key_name \/ column = key_age ->
       sortColumn c' = Some column /\
       (sortColumn c <> Some column -> sortDirection c' = asc) /\
       (sortColumn c = Some column ->
          sortDirection c' <> sortDirection c /\
          toggleSort column c' = c)).
Proof.
  intros column c c'. unfold c'. split; [|split].
  - unfold toggleSort.
    repeat match goal with
           | |- context [match ?x with _ => _ end] => destruct x
           end; repeat split.
  - intros [->| ->]; reflexivity.
  - intros [->| ->]; unfold toggleSort; simpl;
      destruct c as [us q pg sz [[]|] [] le d]; simpl;
      repeat split; try congruence; try discriminate.
Qed.

(** X24. The search pipe is idempotent and keeps the active query in
    step with what it let through: a settled input fed twice in a row
    has the effect of feeding it once, and through any sequence of
    operations the active query is the value emitted last. *)
Theorem search_commit_idempotent :
  forall (toLowerCase : jsstring -> jsstring)
         (localeCompare : jsstring -> jsstring -> Z)
         (term : jsstring) (ops : list Operation) (c : UserTableComponent),
    searchSettled term (searchSettled term c) = searchSettled term c /\
    (queryIsLastEmitted c ->
     queryIsLastEmitted (performAll toLowerCase localeCompare ops c)).
Proof.
  intros toLowerCase localeCompare term ops c; split.
  - assert (E : searchSettled term c = c \/
                (searchSettled term c = commit term c /\ destroyed c = false)).
    { unfold searchSettled. destruct (destroyed c); [left; reflexivity|].
      destruct (distinctUntilChanged term c); [right | left]; auto. }
    destruct E as [E|[E Hd]]; rewrite !E; [reflexivity|].
    unfold searchSettled, distinctUntilChanged. simpl.
    rewrite Hd, streq_refl. reflexivity.
  - unfold performAll. revert c.
    induction ops as [|op ops IH]; intros c H; [exact H|].
    simpl. apply IH. unfold queryIsLastEmitted in *.
    destruct op as [p| | |column|t]; simpl.
    + unfold goToPage.
      destruct ((1 <=? p) && (p <=? totalPages toLowerCase localeCompare c));
        exact H.
    + unfold nextPage.
      destruct (hasNextPage toLowerCase localeCompare c); exact H.
    + unfold previousPage. destruct (hasPreviousPage c); exact H.
    + unfold toggleSort.
      repeat match goal with
             | |- context [match ?x with _ => _ end] => destruct x
             end; exact H.
    + unfold searchSettled.
      destruct (destroyed c); [exact H|].
      destruct (distinctUntilChanged t c); [|exact H].
      simpl. intros t' E; inversion E; reflexivity.
Qed.

Lemma search_commit_idempotent_witness :
  queryIsLastEmitted
    (performAll asciiToLowerCase codeUnitCompare
       [SearchSettled (str "e"); NextPage; SearchSettled (str "E")] initial).
Proof.
  apply (proj2 (search_commit_idempotent asciiToLowerCase codeUnitCompare
                  (str "e")
                  [SearchSettled (str "e"); NextPage; SearchSettled (str "E")]
                  initial)).
  intros term H; discriminate H.
Defined.

End TableMore.
